(** * poisson_tools.py: Poisson spike trains and the AER event codec

    A shallow embedding of [src/poisson_tools.py] and the properties its
    specification states about it.

    Numbers.  Python integers and numpy [uint32] values are [Z], with the
    32-bit wrap-around written out where the code casts to [uint32].

    In the codec (module [AER]) a float is the rational it denotes, and the
    two float operations of the codec, [/ 1000.] and [* 1000.], round their
    exact result to the nearest double (module [Float]); every definition
    there evaluates.

    In the generator (module [Poisson]) a float is a real number or one of
    the three IEEE special values, because the code takes a logarithm and
    divides by a sum that can be zero; the rounding of finite results is
    not modelled there. *)

From Stdlib Require Import Strings.Byte String Ascii.
From Stdlib Require Import ZArith QArith Qround Qabs Qpower Lia Lqa List Bool.
From Stdlib Require Import Permutation Sorted.
From Stdlib Require Import Reals Lra.
Import ListNotations.

Local Open Scope Z_scope.

(** ** Results of a call that can raise *)

Inductive exn : Type :=
| ValueError    (* numpy: cannot reshape array of odd size into (n/2, 2) *)
| IndexError.   (* index out of bounds *)

Inductive result (A : Type) : Type :=
| Ok (a : A)
| Raise (e : exn).
Arguments Ok {A} a.
Arguments Raise {A} e.

(** ** Doubles

    A finite double is a rational.  The result of a float division or
    multiplication is the exact result rounded to the nearest double, ties
    to even, as IEEE 754 has it; the significand has 53 bits.  Underflow
    and overflow are left out: no value of the codec comes near them. *)

Module Float.
Local Open Scope Q_scope.

(** [2^e] for any integer [e]. *)
Definition pow2 (e : Z) : Q := 2 ^ e.

(** [floor (log2 q)] for [q > 0]. *)
Definition ilog2 (q : Q) : Z :=
  let k := (Z.log2 (Qnum q) - Z.log2 (Z.pos (Qden q)))%Z in
  if Qle_bool (pow2 k) q then k else (k - 1)%Z.

(** The nearest integer, ties to even. *)
Definition rne (q : Q) : Z :=
  let f := Qfloor q in
  match Qcompare (q - inject_Z f) (1 # 2) with
  | Lt => f
  | Gt => (f + 1)%Z
  | Eq => if Z.even f then f else (f + 1)%Z
  end.

Definition round_pos (q : Q) : Q :=
  let e := (ilog2 q - 52)%Z in
  inject_Z (rne (q / pow2 e)) * pow2 e.

(** Round to the nearest double. *)
Definition round (q : Q) : Q :=
  match Qcompare q 0 with
  | Eq => 0
  | Gt => round_pos q
  | Lt => - round_pos (- q)
  end.

Definition div (a b : Q) : Q := round (a / b).
Definition mul (a b : Q) : Q := round (a * b).
(** [2^52], [2^53] and the unit roundoff [2^-53]. *)
Definition p52 : Z := 2 ^ 52.
Definition p53 : Z := 2 ^ 53.
Definition eps : Q := 1 # 9007199254740992.

End Float.

(** ** numpy helpers on lists *)

Section Arrays.
Context {A : Type}.

(** [np.where(cond)[0]] on a one-dimensional array: the positions at
    which the condition holds, in increasing order. *)
Fixpoint where_from (p : A -> bool) (k : nat) (l : list A) : list nat :=
  match l with
  | [] => []
  | a :: r => if p a then k :: where_from p (S k) r
              else where_from p (S k) r
  end.

Definition np_where (p : A -> bool) (l : list A) : list nat :=
  where_from p 0 l.

(** [arr[idx]] with an index array. *)
Definition take (d : A) (l : list A) (idx : list nat) : list A :=
  map (fun i => nth i l d) idx.
End Arrays.

(** ** Stable sort

    [sorted(xs, key=...)] is a stable sort.  The result of a stable sort
    is determined by the input and the order on the keys, so insertion sort
    that puts an element before the first one it is [<=] to stands for it. *)

Section StableSort.
Context {A : Type}.
Variable leb : A -> A -> bool.

Fixpoint insert (x : A) (l : list A) : list A :=
  match l with
  | [] => [x]
  | y :: r => if leb x y then x :: y :: r else y :: insert x r
  end.

Fixpoint sorted (l : list A) : list A :=
  match l with
  | [] => []
  | x :: r => insert x (sorted r)
  end.
End StableSort.

Module AER.

(** *** Bytes and big-endian 32-bit words *)

Definition file : Type := list byte.

Definition u32_modulus : Z := 2 ^ 32.

(** [np.uint32(v)] on an integer value. *)
Definition uint32 (z : Z) : Z := z mod u32_modulus.

Definition byte_val (b : byte) : Z := Z.of_N (Byte.to_N b).

Definition byte_of (z : Z) : byte :=
  match Byte.of_N (Z.to_N (z mod 256)) with
  | Some b => b
  | None => x00
  end.

Definition be32 (b0 b1 b2 b3 : byte) : Z :=
  byte_val b0 * 2 ^ 24 + byte_val b1 * 2 ^ 16 + byte_val b2 * 2 ^ 8
  + byte_val b3.

Definition to_be32 (w : Z) : list byte :=
  [byte_of (w / 2 ^ 24); byte_of (w / 2 ^ 16); byte_of (w / 2 ^ 8);
   byte_of w].

(** [f.readline()]: consumes up to and including the next line feed, or to
    the end of the file.  What is returned here is the rest of the file. *)
Fixpoint readline (f : file) : file :=
  match f with
  | [] => []
  | b :: r => if Byte.eqb b x0a then r else readline r
  end.

Fixpoint readlines (n : nat) (f : file) : file :=
  match n with
  | O => f
  | S n' => readlines n' (readline f)
  end.

(** [np.fromfile(f, dtype='>u4')]: as many whole items as the rest of the
    file holds; trailing bytes that do not fill an item are ignored. *)
Fixpoint fromfile_u4 (bs : list byte) : list Z :=
  match bs with
  | b0 :: b1 :: b2 :: b3 :: r => be32 b0 b1 b2 b3 :: fromfile_u4 r
  | _ => []
  end.

(** [arr.astype('>u4').tofile(f)]. *)
Definition tofile_u4 (ws : list Z) : list byte :=
  flat_map to_be32 ws.

(** [np.reshape(All, (All.shape[0]/2, 2))]: rows of two; raises when the
    number of items is odd ([/] is Python 2 integer division). *)
Fixpoint rows2 (ws : list Z) : list (Z * Z) :=
  match ws with
  | a :: t :: r => (a, t) :: rows2 r
  | _ => []
  end.

Definition reshape2 (ws : list Z) : result (list (Z * Z)) :=
  if Nat.even (length ws) then Ok (rows2 ws) else Raise ValueError.

(** *** Decode: [aerfile_to_spike] *)

Definition xmask : Z := 254.
Definition ymask : Z := 32512.
Definition xshift : Z := 1.
Definition yshift : Z := 8.
Definition polmask : Z := 1.

(** Spike times in milliseconds. *)
Definition SpikeTrain : Type := list Q.
Definition SpikeTrainSet : Type := list SpikeTrain.

(** The columns computed for one event, lines 157-172.  [AllAddr + pol]
    is [uint32] arithmetic and wraps; [y*image_size + x] is left unwrapped,
    as it stays far below [2^32] for every [image_size] whose
    [image_size*image_size] lists fit in memory. *)
Definition ev_ts (e : Z * Z) : Q := Float.div (inject_Z (snd e)) 1000.
Definition ev_pol (e : Z * Z) : Z := Z.land (fst e) polmask.
Definition ev_addr (e : Z * Z) : Z := uint32 (fst e + ev_pol e).
Definition ev_x (e : Z * Z) : Z := Z.shiftr (Z.land (ev_addr e) xmask) xshift.
Definition ev_y (e : Z * Z) : Z := Z.shiftr (Z.land (ev_addr e) ymask) yshift.
Definition ev_neuron_id (image_size : Z) (e : Z * Z) : Z :=
  ev_y e * image_size + ev_x e.

Definition num_neurons (image_size : Z) : nat :=
  Z.to_nat (image_size * image_size).

(** The body of the loop over [i], lines 177-183. *)
Definition trains_of (want_pol : Z) (AllTs : list Q) (pol neuron_id : list Z)
    (i : nat) : SpikeTrain :=
  let index_i := np_where (fun n => n =? Z.of_nat i) neuron_id in
  let index_p :=
    np_where (fun p => p =? want_pol) (take 0 pol index_i) in
  if (0 <? length index_p)%nat
  then take 0%Q AllTs (take O index_i index_p)
  else [].

Definition spikes_of_events (image_size : Z) (All : list (Z * Z))
    : SpikeTrainSet * SpikeTrainSet :=
  let AllTs := map ev_ts All in
  let pol := map ev_pol All in
  let neuron_id := map (ev_neuron_id image_size) All in
  let ids := seq 0 (num_neurons image_size) in
  (map (trains_of 0 AllTs pol neuron_id) ids,
   map (trains_of 1 AllTs pol neuron_id) ids).

(** [None] is a path at which no file exists. *)
Definition aerfile_to_spike (f : option file) (image_size : Z)
    : result (SpikeTrainSet * SpikeTrainSet) :=
  match f with
  | Some bytes =>
      match reshape2 (fromfile_u4 (readlines 5 bytes)) with
      | Ok All => Ok (spikes_of_events image_size All)
      | Raise e => Raise e
      end
  | None => Ok ([], [])
  end.

(** *** Encode: [spike_to_aerfile] *)

(** One pass of the loop body at lines 211-214 (and 221-224): the spikes of
    neuron [i] are appended to [time_stamp], and [i] is appended to
    [neuron_id] once per spike. *)
Definition extend_with (src : SpikeTrainSet) (st : list Q * list Z) (i : nat)
    : list Q * list Z :=
  match nth i src [] with
  | [] => st
  | spikes =>
      (fst st ++ spikes, snd st ++ repeat (Z.of_nat i) (length spikes))
  end.

Definition collect (src : SpikeTrainSet) (num_neuron : nat)
    (st : list Q * list Z) : list Q * list Z :=
  fold_left (extend_with src) (seq 0 num_neuron) st.

(** Lines 203-228: the three parallel lists [time_stamp], [neuron_id] and
    [pol].  [num_on] is only read when [pol] is not empty, which happens
    only after the ON branch has set it. *)
Definition gather (spike_source_array_on spike_source_array_off : SpikeTrainSet)
    (image_size : Z) : list Q * list Z * list Z :=
  let num_neuron := image_size * image_size in
  let st0 : list Q * list Z := ([], []) in
  let '(st1, num_on, pol1) :=
    if Z.of_nat (length spike_source_array_on) =? num_neuron
    then
      let st := collect spike_source_array_on (Z.to_nat num_neuron) st0 in
      (st, length (fst st), repeat 0 (length (fst st)))
    else (st0, O, []) in
  let '(st2, pol2) :=
    if Z.of_nat (length spike_source_array_off) =? num_neuron
    then
      let st := collect spike_source_array_off (Z.to_nat num_neuron) st1 in
      (st,
       if (0 <? length pol1)%nat
       then pol1 ++ repeat (-1) (length (fst st) - num_on)
       else repeat (-1) (length (fst st)))
    else (st1, pol1) in
  (fst st2, snd st2, pol2).

Definition CRLF : String.string :=
  String.String (Ascii.ascii_of_nat 13)
    (String.String (Ascii.ascii_of_nat 10) String.EmptyString).

Definition tok : String.string := "#!AER-DAT"%string.
Definition tok2 : String.string :=
  "# This is a raw AE data file - do not edit"%string.
Definition tok3 : String.string :=
  "# Data format is int32 address, int32 timestamp (8 bytes total), repeated for each event"%string.
Definition tok4 : String.string := "# Timestamps tick is 1 us"%string.

(** [now] is the text of [datetime.datetime.now()]. *)
Definition tok5 (now : String.string) : String.string :=
  String.append "# Created "%string now.

(** What lines 248-253 write. *)
Definition header (now : String.string) : file :=
  String.list_byte_of_string
    (String.concat String.EmptyString
       [tok; "2.0"%string; CRLF; tok2; CRLF; tok3; CRLF; tok4; CRLF;
        tok5 now; CRLF]).

(** [np.reshape(np.transpose(All), (1, n+n))[0]] for the two rows
    [All[0] = AllAddr] and [All[1] = AllTs]. *)
Fixpoint interleave (AllAddr AllTs : list Z) : list Z :=
  match AllAddr, AllTs with
  | a :: ar, t :: tr => a :: t :: interleave ar tr
  | _, _ => []
  end.

Definition pack_address (jaer_size : Z) (x y Polarity : Z) : Z :=
  uint32 (Z.shiftl x 1 + Z.shiftl y 1 * jaer_size + Polarity).

Fixpoint map3 {A B C D : Type} (f : A -> B -> C -> D)
    (la : list A) (lb : list B) (lc : list C) : list D :=
  match la, lb, lc with
  | a :: ra, b :: rb, c :: rc => f a b c :: map3 f ra rb rc
  | _, _, _ => []
  end.

(** The outcome of a call: either the file that was written together with
    the returned triple [(AllTs, neuron_id, Polarity)], or the other
    branch, which prints [Output is []], opens no file and returns [[]]. *)
Inductive encoded : Type :=
| Written (f : file) (AllTs neuron_id Polarity : list Z)
| OutputIsEmpty.

(** [np.uint32(np.ceil(t*1000.))]: the float is rounded up to an integer
    and the cast keeps its low 32 bits. *)
Definition to_us (t : Q) : Z := uint32 (Qceiling (Float.mul t 1000)).

Definition spike_to_aerfile
    (spike_source_array_on spike_source_array_off : SpikeTrainSet)
    (now : String.string) (image_size jaer_size : Z) : encoded :=
  let '(time_stamp, neuron_id, pol) :=
    gather spike_source_array_on spike_source_array_off image_size in
  if (0 <? length time_stamp)%nat
  then
    let sort_index :=
      sorted (fun i j => Qle_bool (nth i time_stamp 0%Q) (nth j time_stamp 0%Q))
             (seq 0 (length time_stamp)) in
    let AllTs := map to_us (take 0%Q time_stamp sort_index) in
    let Polarity := take 0 pol sort_index in
    let neuron_id := take 0 neuron_id sort_index in
    let y := map (fun n => n / image_size) neuron_id in
    let x := map (fun n => n mod image_size) neuron_id in
    let AllAddr := map3 (pack_address jaer_size) x y Polarity in
    Written (header now ++ tofile_u4 (interleave AllAddr AllTs))
            AllTs neuron_id Polarity
  else OutputIsEmpty.

End AER.


(** ** The generator *)

Module Poisson.
Local Open Scope R_scope.

(** A Python float: a real number or one of the IEEE special values.  The
    sign of a zero is not kept; the only divisor that can be zero here is a
    [sum(...)] started from the integer [0], which is never [-0.0]. *)
Inductive pyfloat : Type :=
| Fin (r : R)
| PInf
| NInf
| NaN.

(** Sums, products and quotients of finite values are taken exactly: the
    rounding of a double is left out.  What is stated of the generator
    holds of the rounded operations as well, since it uses only that adding
    an interval that is not negative does not decrease a time.  Nothing is
    stated that needs an interval to advance the time: added to a large
    time, a small interval is absorbed by the rounding. *)
Definition fadd (a b : pyfloat) : pyfloat :=
  match a, b with
  | NaN, _ | _, NaN => NaN
  | PInf, NInf | NInf, PInf => NaN
  | PInf, _ | _, PInf => PInf
  | NInf, _ | _, NInf => NInf
  | Fin x, Fin y => Fin (x + y)
  end.

(** The sign of a float: [+1], [-1] or [0]. *)
Definition sign (r : R) : Z :=
  if Rlt_dec 0 r then 1%Z else if Rlt_dec r 0 then (-1)%Z else 0%Z.

Definition fsign (a : pyfloat) : Z :=
  match a with
  | Fin r => sign r
  | PInf => 1%Z
  | NInf => (-1)%Z
  | NaN => 0%Z
  end.

Definition inf_of_sign (s : Z) : pyfloat :=
  if (0 <? s)%Z then PInf else if (s <? 0)%Z then NInf else NaN.

Definition fmul (a b : pyfloat) : pyfloat :=
  match a, b with
  | NaN, _ | _, NaN => NaN
  | Fin x, Fin y => Fin (x * y)
  | _, _ => inf_of_sign (fsign a * fsign b)
  end.

(** Division as numpy does it: dividing by zero raises nothing, it gives an
    infinity, or NaN for [0/0]. *)
Definition fdiv (a b : pyfloat) : pyfloat :=
  match a, b with
  | NaN, _ | _, NaN => NaN
  | Fin x, Fin y =>
      if Req_dec_T y 0 then inf_of_sign (sign x) else Fin (x / y)
  | Fin _, _ => Fin 0
  | _, Fin y => inf_of_sign (fsign a * (if Rlt_dec y 0 then -1 else 1))
  | _, _ => NaN
  end.

(** [a < b]; false when either side is NaN. *)
Definition flt (a b : pyfloat) : bool :=
  match a, b with
  | NaN, _ | _, NaN => false
  | Fin x, Fin y => if Rlt_dec x y then true else false
  | NInf, Fin _ | NInf, PInf | Fin _, PInf => true
  | _, _ => false
  end.

Definition SpikeTrain : Type := list pyfloat.

(** The successive results of [random.random()], numbered in call order;
    the position of the next one is threaded through the calls. *)
Definition rng : Type := nat -> R.

(** [-math.log(1.0 - random.random()) / rateParameter], with [u] the value
    [random.random()] returned.  [random.random()] lies in [[0, 1)], where
    [math.log] is defined. *)
Definition nextTime (u : R) (rateParameter : pyfloat) : pyfloat :=
  fdiv (Fin (- ln (1 - u))) rateParameter.

(** The [while] loop of lines 103-106; [None] when [fuel] iterations were
    not enough. *)
Fixpoint generate (fuel : nat) (draws : rng) (k : nat) (rate : pyfloat)
    (t_stop : R) (last_time : pyfloat) (poisson_train : SpikeTrain)
    : option (SpikeTrain * nat) :=
  if flt last_time (Fin t_stop) then
    match fuel with
    | O => None
    | S fuel' =>
        let poisson_train := poisson_train ++ [last_time] in
        let next_isi := fmul (nextTime (draws k) rate) (Fin 1000) in
        generate fuel' draws (S k) rate t_stop (fadd last_time next_isi)
                 poisson_train
    end
  else Some (poisson_train, k).

Definition poisson_generator (fuel : nat) (draws : rng) (k : nat)
    (rate : pyfloat) (t_start t_stop : R) : option (SpikeTrain * nat) :=
  if flt (Fin 0) rate then
    let next_isi := fmul (nextTime (draws k) rate) (Fin 1000) in
    let last_time := fadd next_isi (Fin t_start) in
    generate fuel draws (S k) rate t_stop last_time []
  else Some ([], k).

(** *** [image_to_poisson_trains] *)

(** How a call ends. *)
Inductive outcome (A : Type) : Type :=
| Returns (a : A)
| Raises (e : exn)
| OutOfFuel.
Arguments Returns {A} a.
Arguments Raises {A} e.
Arguments OutOfFuel {A}.

Definition bind {A B : Type} (m : outcome A) (f : A -> outcome B)
    : outcome B :=
  match m with
  | Returns a => f a
  | Raises e => Raises e
  | OutOfFuel => OutOfFuel
  end.

Notation "x <- m ;; f" := (bind m (fun x => f))
  (at level 61, m at next level, right associativity).

(** [for i in idx: s = body(i, s)]. *)
Fixpoint for_each {S : Type} (idx : list nat) (body : nat -> S -> outcome S)
    (s : S) : outcome S :=
  match idx with
  | [] => Returns s
  | i :: rest => s' <- body i s ;; for_each rest body s'
  end.

(** [l[i] = v] for [i] in range; a list is returned unchanged otherwise,
    which does not happen below. *)
Fixpoint set_nth {A : Type} (i : nat) (v : A) (l : list A) : list A :=
  match l, i with
  | [], _ => []
  | _ :: r, O => v :: r
  | a :: r, S i' => a :: set_nth i' v r
  end.

(** [l[j]], raising when [j] is out of range. *)
Definition index {A : Type} (l : list A) (j : nat) : outcome A :=
  match nth_error l j with
  | Some a => Returns a
  | None => Raises IndexError
  end.

(** [sum(row)]: the built-in starts from the integer 0. *)
Definition sum (row : list pyfloat) : pyfloat :=
  fold_left fadd row (Fin 0).

(** [row / sum(row) * max_freq], elementwise. *)
Definition rates (max_freq : R) (row : list pyfloat) : list pyfloat :=
  map (fun p => fmul (fdiv p (sum row)) (Fin max_freq)) row.

(** Lines 122-128: every row of the caller's array is overwritten. *)
Definition normalize (image_list : list (list pyfloat)) (max_freq : R)
    : list (list pyfloat) :=
  if Rlt_dec 0 max_freq then
    fold_left
      (fun il i => set_nth i (rates max_freq (nth i il [])) il)
      (seq 0 (length image_list)) image_list
  else image_list.

(** The state of the two nested loops: [spike_source_data] and the
    position in the random stream. *)
Definition gen_state : Type := list SpikeTrain * nat.

Definition pixel_step (fuel : nat) (draws : rng) (row : list pyfloat)
    (t_start t_stop : R) (j : nat) (st : gen_state) : outcome gen_state :=
  rate <- index row j ;;
  match poisson_generator fuel draws (snd st) rate t_start t_stop with
  | None => OutOfFuel
  | Some (spikes, k') =>
      match spikes with
      | [] => Returns (fst st, k')
      | _ => Returns (set_nth j (nth j (fst st) [] ++ spikes) (fst st), k')
      end
  end.

Definition image_step (fuel : nat) (draws : rng)
    (image_list : list (list pyfloat)) (pixels : nat) (duration silence : R)
    (i : nat) (st : gen_state) : outcome gen_state :=
  let t_start := INR i * (duration + silence) in
  let t_stop := t_start + duration in
  for_each (seq 0 pixels)
    (pixel_step fuel draws (nth i image_list []) t_start t_stop) st.

(** The call leaves the caller's array as its first component and ends as
    its second says; [k] is the position in the random stream at entry. *)
Definition image_to_poisson_trains (fuel : nat) (draws : rng) (k : nat)
    (image_list : list (list pyfloat)) (image_height image_width : nat)
    (max_freq duration silence : R)
    : list (list pyfloat) * outcome (list SpikeTrain) :=
  let image_list := normalize image_list max_freq in
  let spike_source_data := repeat [] (image_height * image_width) in
  (image_list,
   st <- for_each (seq 0 (length image_list))
           (image_step fuel draws image_list (image_height * image_width)
              duration silence)
           (spike_source_data, k) ;;
   Returns (fst st)).

(** The inter-spike interval in milliseconds that a draw [u] gives at a
    rate above zero. *)
Definition isi_ms (u : R) (rate : pyfloat) : R :=
  match rate with
  | Fin r => - ln (1 - u) / r * 1000
  | _ => 0 * 1000
  end.

(** Draws that make a spike repeat: two zeros, then the value whose
    interval is one second at 1 Hz. *)
Definition zero_draws : rng :=
  fun n => if (n <? 2)%nat then 0 else 1 - exp (- 1).

End Poisson.

(** *** The events behind the parallel arrays

    The encoder keeps three parallel lists.  An [enc_event] is one position
    of them: a spike time in milliseconds, a neuron id and the polarity tag
    ([0] for ON, [-1] for OFF). *)

Module Events.
Import AER.

Definition enc_event : Type := Q * Z * Z.
Definition time_of (e : enc_event) : Q := fst (fst e).
Definition id_of (e : enc_event) : Z := snd (fst e).
Definition pol_of (e : enc_event) : Z := snd e.

(** The spikes of the first [n] neurons of a set, neuron by neuron. *)
Definition flat (src : SpikeTrainSet) (n : nat) : list (Q * Z) :=
  flat_map (fun i => map (fun t => (t, Z.of_nat i)) (nth i src [])) (seq 0 n).

Definition tagged (tag : Z) (src : SpikeTrainSet) (image_size : Z)
    : list enc_event :=
  if Z.of_nat (length src) =? image_size * image_size
  then map (fun p => (p, tag)) (flat src (num_neurons image_size))
  else [].

(** All ON events, then all OFF events: the order in which lines 209-228
    append them. *)
Definition enc_events (on off : SpikeTrainSet) (image_size : Z)
    : list enc_event :=
  tagged 0 on image_size ++ tagged (-1) off image_size.

Definition time_leb (a b : enc_event) : bool :=
  Qle_bool (time_of a) (time_of b).

(** The order in which the events are emitted. *)
Definition emitted (on off : SpikeTrainSet) (image_size : Z)
    : list enc_event :=
  sorted time_leb (enc_events on off image_size).

(** The (address, timestamp) pair written for one event. *)
Definition pair_of (image_size jaer_size : Z) (e : enc_event) : Z * Z :=
  (pack_address jaer_size (id_of e mod image_size) (id_of e / image_size)
     (pol_of e),
   to_us (time_of e)).

Definition flat_pairs (All : list (Z * Z)) : list Z :=
  flat_map (fun e => [fst e; snd e]) All.

(** An AER file whose header is [h] and whose events are [All]. *)
Definition aer_file (h : file) (All : list (Z * Z)) : file :=
  h ++ tofile_u4 (flat_pairs All).

(** [h] consists of exactly [n] complete lines. *)
Fixpoint header_lines (n : nat) (h : file) : bool :=
  match h with
  | [] => (n =? 0)%nat
  | b :: r =>
      match n with
      | O => false
      | S n' => if Byte.eqb b x0a then header_lines n' r
                else header_lines n r
      end
  end.

Definition u32_pair (e : Z * Z) : Prop :=
  0 <= fst e < u32_modulus /\ 0 <= snd e < u32_modulus.

Inductive polarity : Type := ON | OFF.

(** Decode reads the polarity from bit 0 of the address. *)
Definition polarity_of_bit (b : Z) : polarity := if b =? 0 then ON else OFF.

(** Encode tags ON with [0] and OFF with [-1]. *)
Definition polarity_of_tag (p : Z) : polarity := if p =? 0 then ON else OFF.

(** The (neuron_id, polarity, timestamp in microseconds) triple that decode
    reads from a pair of the file. *)
Definition triple_of_pair (image_size : Z) (e : Z * Z)
    : Z * polarity * Z :=
  (ev_neuron_id image_size e, polarity_of_bit (ev_pol e), snd e).

(** The triples in the value [(AllTs, neuron_id, Polarity)] that encode
    returns. *)
Definition returned_triples (AllTs neuron_id Polarity : list Z)
    : list (Z * polarity * Z) :=
  map3 (fun t n p => (n, polarity_of_tag p, t)) AllTs neuron_id Polarity.

(** The events whose neuron id is below [image_size * image_size]. *)
Definition in_image (image_size : Z) (e : Z * Z) : bool :=
  ev_neuron_id image_size e <? image_size * image_size.

(** The events of a file that decoding keeps: those whose neuron id is one
    of [0 .. image_size * image_size - 1]. *)
Definition kept (image_size : Z) (e : Z * Z) : bool :=
  (0 <=? ev_neuron_id image_size e)
  && (ev_neuron_id image_size e <? image_size * image_size).

(** The spikes of two decoded sets, each with its neuron and polarity. *)
Definition decoded_triples (on off : SpikeTrainSet) (n : nat)
    : list (Z * polarity * Q) :=
  map (fun p => (snd p, ON, fst p)) (flat on n)
  ++ map (fun p => (snd p, OFF, fst p)) (flat off n).

(** The same for one pair of the file, with the time in milliseconds. *)
Definition decoded_event (image_size : Z) (e : Z * Z) : Z * polarity * Q :=
  (ev_neuron_id image_size e, polarity_of_bit (ev_pol e), ev_ts e).

(** The encoder's event for one pair of a file: what decode turns the
    pair into, with the OFF bit [1] as the tag [-1]. *)
Definition enc_of_pair (image_size : Z) (e : Z * Z) : enc_event :=
  (ev_ts e, ev_neuron_id image_size e, - ev_pol e).

(** The triple that encode returns for one of its events. *)
Definition triple_of_event (e : enc_event) : Z * polarity * Z :=
  (id_of e, polarity_of_tag (pol_of e), to_us (time_of e)).

(** Packing with row stride 128 and unpacking gives back [x], [y] and the
    polarity, checked on every [x], [y] below 128. *)
Definition unpacks (x y p : Z) : bool :=
  let a := pack_address 128 x y (- p) in
  (ev_pol (a, 0) =? p) && (ev_x (a, 0) =? x) && (ev_y (a, 0) =? y).

Definition below128 : list Z := map Z.of_nat (seq 0 128).

(** Two triples that agree on neuron and polarity and whose timestamps
    differ by the rounding of the conversion only: the first is the second
    or one microsecond more. *)
Definition close (a b : Z * polarity * Z) : Prop :=
  fst a = fst b /\ snd b <= snd a <= snd b + 1.

(** The same multiset of triples, up to that rounding. *)
Definition same_triples (l1 l2 : list (Z * polarity * Z)) : Prop :=
  exists l, Permutation l1 l /\ Forall2 close l l2.

End Events.

(** *** The decoding rule as the specification words it

    The specification gives the fields of an event without the 32-bit
    wrap of [AllAddr + pol]; these definitions follow its words, to be
    compared with [ev_pol], [ev_x], [ev_y], [ev_neuron_id] and [ev_ts]. *)

Module Claimed.

Definition polarity_bit (address : Z) : Z := Z.land address 1.

Definition x (address : Z) : Z :=
  Z.shiftr (Z.land (address + polarity_bit address) 254) 1.

Definition y (address : Z) : Z :=
  Z.shiftr (Z.land (address + polarity_bit address) 32512) 8.

Definition neuron_id (image_size address : Z) : Z :=
  y address * image_size + x address.

Definition milliseconds (timestamp : Z) : Q :=
  Float.div (inject_Z timestamp) 1000.

(** The events of a file that the rule sends to neuron [i] with polarity
    bit [p]. *)
Definition selects (image_size : Z) (p : Z) (i : nat) (e : Z * Z) : bool :=
  (polarity_bit (fst e) =? p)
  && (neuron_id image_size (fst e) =? Z.of_nat i).

End Claimed.

(** What was written to the file named by [file_name], if anything. *)
Definition written_file (r : AER.encoded) : option AER.file :=
  match r with
  | AER.Written f _ _ _ => Some f
  | AER.OutputIsEmpty => None
  end.

Definition no_event : Events.enc_event := (0%Q, 0, 0).

(** ** Sample inputs *)

Module Samples.
Import AER Events Poisson.

Definition now : String.string := "2020-01-01 00:00:00.000000"%string.

(** A header as the encoder writes it. *)
Definition hdr : file := header now.

(** Four events for a 2x2 image: ON at neuron 3, OFF at neuron 5 (outside
    the image), ON at neuron 3, OFF at neuron 3. *)
Definition events4 : list (Z * Z) := [(6, 1500); (261, 10); (6, 20); (5, 7)].

(** The three of them that lie in the image. *)
Definition events3 : list (Z * Z) := [(6, 1500); (6, 20); (5, 7)].

(** One neuron with two ON spikes out of order and one OFF spike that ties
    with an ON spike. *)
Definition on1 : SpikeTrainSet := [[2; 1]%Q].
Definition off1 : SpikeTrainSet := [[1%Q]].

End Samples.

(** ** Further definitions *)

Module Further.
Import AER Events.

(** A time that was encoded and decoded again: rounded up to a whole
    number of microseconds (kept to 32 bits), then divided by 1000. *)
Definition requantize (t : Q) : Q := Float.div (inject_Z (to_us t)) 1000.

(** A train after encode and decode. *)
Definition redecoded (train : AER.SpikeTrain) : AER.SpikeTrain :=
  map requantize (sorted Qle_bool train).

(** The text holds no line feed. *)
Definition no_line_feed (s : String.string) : bool :=
  forallb (fun b => negb (Byte.eqb b x0a)) (String.list_byte_of_string s).

(** The number of spikes a set contributes to an encoding: all of them
    when the set has one train per neuron, none otherwise. *)
Definition contributed (src : SpikeTrainSet) (image_size : Z) : nat :=
  if Z.of_nat (length src) =? image_size * image_size
  then length (concat src)
  else O.

(** The number of line feeds in a file. *)
Definition line_feeds (f : file) : nat :=
  length (filter (fun b => Byte.eqb b x0a) f).

(** Trains joined neuron by neuron. *)
Fixpoint join (a b : SpikeTrainSet) : SpikeTrainSet :=
  match a, b with
  | x :: a', y :: b' => (x ++ y) :: join a' b'
  | _, _ => []
  end.

(** The first four lines of the header, and the start of the fifth. *)
Definition header_prefix : file :=
  String.list_byte_of_string
    (String.concat String.EmptyString
       [tok; "2.0"%string; CRLF; tok2; CRLF; tok3; CRLF; tok4; CRLF]).

Definition created : file := String.list_byte_of_string "# Created ".

End Further.

Module FurtherPoisson.
Import Poisson.
Local Open Scope R_scope.






(** The sum of a list of reals. *)
Definition total (ps : list R) : R := fold_right Rplus 0 ps.

(** Every draw is the value whose interval is one second at 1 Hz. *)
Definition second_draws : rng := fun _ => 1 - exp (- 1).

(** Two images of two pixels each, the first pixel at 1 Hz and the second
    silent. *)
Definition two_images : list (list pyfloat) :=
  [[Fin 1; Fin 0]; [Fin 1; Fin 0]].

End FurtherPoisson.

(** * Properties *)

(** ** Rounding to a double *)

Section FloatFacts.
Import Float.
Local Open Scope Q_scope.

Lemma pow2_pos e : 0 < pow2 e.
Proof. apply Qpower_0_lt. reflexivity. Qed.

Lemma pow2_plus a b : pow2 (a + b) == pow2 a * pow2 b.
Proof. apply Qpower_plus. discriminate. Qed.

Lemma pow2_Z a : (0 <= a)%Z -> pow2 a == inject_Z (2 ^ a).
Proof. intros H. unfold pow2. now rewrite Zpower_Qpower. Qed.

Lemma pow2_lt a b : (a < b)%Z -> pow2 a < pow2 b.
Proof. intros H. apply Qpower_lt_compat_l; [exact H|reflexivity]. Qed.

Lemma pow2_le a b : (a <= b)%Z -> pow2 a <= pow2 b.
Proof. intros H. apply Qpower_le_compat_l; [exact H|discriminate]. Qed.

Lemma pow2_lt_inv a b : pow2 a < pow2 b -> (a < b)%Z.
Proof. intros H. apply (Qpower_lt_compat_l_inv 2); [exact H|reflexivity]. Qed.

Lemma ilog2_lower_aux (n : Z) (d : positive) :
  (0 < n)%Z ->
  pow2 (Z.log2 n - Z.log2 (Z.pos d) - 1) <= n # d.
Proof.
  intros Hn.
  set (a := Z.log2 n). set (b := Z.log2 (Z.pos d)).
  assert (Ha : (0 <= a)%Z) by apply Z.log2_nonneg.
  assert (Hb : (0 <= b)%Z) by apply Z.log2_nonneg.
  destruct (Z.log2_spec n Hn) as [Hn1 Hn2]. fold a in Hn1, Hn2.
  destruct (Z.log2_spec (Z.pos d) (Pos2Z.is_pos d)) as [Hd1 Hd2].
  fold b in Hd1, Hd2.
  apply (Qmult_le_r _ _ (pow2 (b + 1))); [apply pow2_pos|].
  rewrite <- pow2_plus.
  replace (a - b - 1 + (b + 1))%Z with a by ring.
  rewrite (pow2_Z a Ha), (pow2_Z (b + 1)) by lia.
  unfold Qle. cbn [Qnum Qden Qmult inject_Z].
  rewrite Pos.mul_1_r, Z.mul_1_r.
  replace (Z.succ b) with (b + 1)%Z in Hd2 by lia. nia.
Qed.

Lemma ilog2_upper_aux (n : Z) (d : positive) :
  (0 < n)%Z ->
  n # d < pow2 (Z.log2 n - Z.log2 (Z.pos d) + 1).
Proof.
  intros Hn.
  set (a := Z.log2 n). set (b := Z.log2 (Z.pos d)).
  assert (Ha : (0 <= a)%Z) by apply Z.log2_nonneg.
  assert (Hb : (0 <= b)%Z) by apply Z.log2_nonneg.
  destruct (Z.log2_spec n Hn) as [Hn1 Hn2]. fold a in Hn1, Hn2.
  destruct (Z.log2_spec (Z.pos d) (Pos2Z.is_pos d)) as [Hd1 Hd2].
  fold b in Hd1, Hd2.
  apply (Qmult_lt_r _ _ (pow2 b)); [apply pow2_pos|].
  rewrite <- pow2_plus.
  replace (a - b + 1 + b)%Z with (a + 1)%Z by ring.
  rewrite (pow2_Z b Hb), (pow2_Z (a + 1)) by lia.
  unfold Qlt. cbn [Qnum Qden Qmult inject_Z].
  rewrite Pos.mul_1_r, Z.mul_1_r.
  replace (Z.succ a) with (a + 1)%Z in Hn2 by lia. nia.
Qed.

Lemma ilog2_spec q :
  0 < q -> pow2 (ilog2 q) <= q /\ q < pow2 (ilog2 q + 1).
Proof.
  intros Hq. destruct q as [n d].
  assert (Hn : (0 < n)%Z).
  { unfold Qlt in Hq. cbn in Hq. lia. }
  unfold ilog2. cbn [Qnum Qden].
  set (k := (Z.log2 n - Z.log2 (Z.pos d))%Z).
  destruct (Qle_bool (pow2 k) (n # d)) eqn:E.
  - split; [now apply Qle_bool_iff|]. now apply ilog2_upper_aux.
  - split.
    + now apply ilog2_lower_aux.
    + replace (k - 1 + 1)%Z with k by ring.
      apply Qnot_le_lt. intros H. apply Qle_bool_iff in H. congruence.
Qed.

Lemma frac_range q :
  0 <= q - inject_Z (Qfloor q) /\ q - inject_Z (Qfloor q) < 1.
Proof.
  pose proof (Qfloor_le q). pose proof (Qlt_floor q).
  rewrite inject_Z_plus in *. change (inject_Z 1) with 1 in *.
  split; Lqa.lra.
Qed.

(** The three cases of [rne], with the fractional part. *)
Lemma rne_cases q :
  let f := Qfloor q in
  let r := q - inject_Z f in
  (r < 1 # 2 /\ rne q = f)
  \/ ((1 # 2) < r /\ rne q = (f + 1)%Z)
  \/ (r == 1 # 2 /\ rne q = if Z.even f then f else (f + 1)%Z).
Proof.
  intros f r. unfold rne. fold f. fold r.
  destruct (Qcompare r (1 # 2)) eqn:E.
  - right; right. split; [now apply Qeq_alt|reflexivity].
  - left. split; [now apply Qlt_alt|reflexivity].
  - right; left. split; [now apply Qgt_alt|reflexivity].
Qed.

Lemma rne_error q :
  - (1 # 2) <= inject_Z (rne q) - q <= 1 # 2.
Proof.
  pose proof (frac_range q) as [H0 H1].
  destruct (rne_cases q) as [[Hr ->]|[[Hr ->]|[Hr ->]]];
    try (destruct (Z.even (Qfloor q))); rewrite ?inject_Z_plus;
    change (inject_Z 1) with 1 in *; split; Lqa.lra.
Qed.

Lemma rne_Z z : rne (inject_Z z) = z.
Proof.
  destruct (rne_cases (inject_Z z)) as [[Hr E]|[[Hr E]|[Hr E]]];
    rewrite Qfloor_Z in *.
  - exact E.
  - Lqa.lra.
  - Lqa.lra.
Qed.

Lemma rne_mono x y : x <= y -> (rne x <= rne y)%Z.
Proof.
  intros Hxy.
  pose proof (Qfloor_resp_le x y Hxy) as Hf.
  pose proof (frac_range x) as [Hx0 Hx1].
  pose proof (frac_range y) as [Hy0 Hy1].
  destruct (Z.eq_dec (Qfloor x) (Qfloor y)) as [Ef|Nf].
  - destruct (rne_cases x) as [[Hrx ->]|[[Hrx ->]|[Hrx ->]]];
      destruct (rne_cases y) as [[Hry ->]|[[Hry ->]|[Hry ->]]];
      rewrite <- ?Ef in *;
      try (destruct (Z.even (Qfloor x))); try lia; Lqa.lra.
  - assert (Qfloor x + 1 <= Qfloor y)%Z by lia.
    destruct (rne_cases x) as [[Hrx ->]|[[Hrx ->]|[Hrx ->]]];
      destruct (rne_cases y) as [[Hry ->]|[[Hry ->]|[Hry ->]]];
      try (destruct (Z.even (Qfloor x)));
      try (destruct (Z.even (Qfloor y))); lia.
Qed.

Lemma pow2_52 : pow2 52 == inject_Z p52.
Proof. reflexivity. Qed.

Lemma pow2_53 : pow2 53 == inject_Z p53.
Proof. reflexivity. Qed.

(** The significand scaled to an integer range. *)
Lemma scaled_range q :
  0 < q ->
  let e := (ilog2 q - 52)%Z in
  inject_Z p52 <= q / pow2 e /\ q / pow2 e < inject_Z p53
  /\ q / pow2 e * pow2 e == q.
Proof.
  intros Hq e. destruct (ilog2_spec q Hq) as [Hl Hu].
  pose proof (pow2_pos e) as He.
  assert (E1 : pow2 (ilog2 q) == pow2 52 * pow2 e).
  { rewrite <- pow2_plus. unfold e.
    now replace (52 + (ilog2 q - 52))%Z with (ilog2 q) by ring. }
  assert (E2 : pow2 (ilog2 q + 1) == pow2 53 * pow2 e).
  { rewrite <- pow2_plus. unfold e.
    now replace (53 + (ilog2 q - 52))%Z with (ilog2 q + 1)%Z by ring. }
  rewrite E1 in Hl. rewrite E2 in Hu. rewrite pow2_52 in Hl.
  rewrite pow2_53 in Hu.
  assert (Hne : ~ pow2 e == 0) by Lqa.lra.
  repeat split.
  - apply Qle_shift_div_l; assumption.
  - apply Qlt_shift_div_r; assumption.
  - field. exact Hne.
Qed.

Lemma rne_scaled q :
  0 < q ->
  (p52 <= rne (q / pow2 (ilog2 q - 52)) <= p53)%Z.
Proof.
  intros Hq. destruct (scaled_range q Hq) as (Hl & Hu & _). split.
  - rewrite <- (rne_Z p52). now apply rne_mono.
  - rewrite <- (rne_Z p53). apply rne_mono. now apply Qlt_le_weak.
Qed.

Lemma round_pos_error q :
  0 < q -> - (q * eps) <= round_pos q - q <= q * eps.
Proof.
  intros Hq. unfold round_pos. cbv zeta.
  set (e := (ilog2 q - 52)%Z).
  destruct (scaled_range q Hq) as (Hl & Hu & Hx). fold e in Hl, Hu, Hx.
  pose proof (rne_error (q / pow2 e)) as [R1 R2].
  pose proof (pow2_pos e) as He.
  set (x := q / pow2 e) in *. set (P := pow2 e) in *.
  set (m := inject_Z (rne x)) in *.
  assert (Hp : inject_Z p52 == 4503599627370496) by reflexivity.
  rewrite Hp in Hl. unfold eps.
  assert (HP2 : P * 4503599627370496 <= q).
  { rewrite <- Hx. rewrite (Qmult_comm x P).
    apply Qmult_le_l; assumption. }
  assert (D1 : (m - x) * P <= (1 # 2) * P)
    by (apply Qmult_le_compat_r; Lqa.lra).
  assert (D2 : - (1 # 2) * P <= (m - x) * P)
    by (apply Qmult_le_compat_r; Lqa.lra).
  assert (E : m * P - q == (m - x) * P) by (rewrite <- Hx; ring).
  rewrite E. split; Lqa.lra.
Qed.

Lemma round_pos_range q :
  0 < q ->
  pow2 (ilog2 q) <= round_pos q /\ round_pos q <= pow2 (ilog2 q + 1).
Proof.
  intros Hq. unfold round_pos. cbv zeta.
  set (e := (ilog2 q - 52)%Z).
  pose proof (rne_scaled q Hq) as [Hl Hu]. fold e in Hl, Hu.
  pose proof (pow2_pos e) as He.
  assert (E1 : pow2 (ilog2 q) == inject_Z p52 * pow2 e).
  { rewrite <- pow2_52, <- pow2_plus. unfold e.
    now replace (52 + (ilog2 q - 52))%Z with (ilog2 q) by ring. }
  assert (E2 : pow2 (ilog2 q + 1) == inject_Z p53 * pow2 e).
  { rewrite <- pow2_53, <- pow2_plus. unfold e.
    now replace (53 + (ilog2 q - 52))%Z with (ilog2 q + 1)%Z by ring. }
  rewrite E1, E2. split; apply Qmult_le_compat_r; try Lqa.lra.
  - rewrite <- Zle_Qle. exact Hl.
  - rewrite <- Zle_Qle. exact Hu.
Qed.

Lemma ilog2_mono x y : 0 < x -> x <= y -> (ilog2 x <= ilog2 y)%Z.
Proof.
  intros Hx Hxy. assert (Hy : 0 < y) by Lqa.lra.
  destruct (ilog2_spec x Hx) as [Hl _].
  destruct (ilog2_spec y Hy) as [_ Hu].
  assert (H : pow2 (ilog2 x) < pow2 (ilog2 y + 1)) by Lqa.lra.
  apply pow2_lt_inv in H. lia.
Qed.

Lemma round_pos_mono x y : 0 < x -> x <= y -> round_pos x <= round_pos y.
Proof.
  intros Hx Hxy. assert (Hy : 0 < y) by Lqa.lra.
  pose proof (ilog2_mono x y Hx Hxy) as He.
  destruct (Z.eq_dec (ilog2 x) (ilog2 y)) as [E|N].
  - unfold round_pos. cbv zeta. rewrite E.
    pose proof (pow2_pos (ilog2 y - 52)) as Hp.
    apply Qmult_le_compat_r; [|Lqa.lra].
    rewrite <- Zle_Qle. apply rne_mono.
    apply Qmult_le_compat_r; [exact Hxy|].
    apply Qlt_le_weak, Qinv_lt_0_compat, Hp.
  - destruct (round_pos_range x Hx) as [_ Hu].
    destruct (round_pos_range y Hy) as [Hl _].
    assert (pow2 (ilog2 x + 1) <= pow2 (ilog2 y)) by (apply pow2_le; lia).
    Lqa.lra.
Qed.

Lemma round_pos_pos q : 0 < q -> 0 < round_pos q.
Proof.
  intros Hq. destruct (round_pos_range q Hq) as [Hl _].
  pose proof (pow2_pos (ilog2 q)). Lqa.lra.
Qed.

Lemma round_cases q :
  (q == 0 /\ round q = 0)
  \/ (0 < q /\ round q = round_pos q)
  \/ (q < 0 /\ round q = - round_pos (- q)).
Proof.
  unfold round. destruct (Qcompare q 0) eqn:E.
  - left. split; [now apply Qeq_alt|reflexivity].
  - right; right. split; [now apply Qlt_alt|reflexivity].
  - right; left. split; [now apply Qgt_alt in E|reflexivity].
Qed.

Lemma round_error q :
  - (Qabs q * eps) <= round q - q <= Qabs q * eps.
Proof.
  destruct (round_cases q) as [[Hq ->]|[[Hq ->]|[Hq ->]]].
  - rewrite Hq. split; discriminate.
  - rewrite Qabs_pos by Lqa.lra. now apply round_pos_error.
  - rewrite Qabs_neg by Lqa.lra.
    assert (Hn : 0 < - q) by Lqa.lra.
    pose proof (round_pos_error (- q) Hn). Lqa.lra.
Qed.

Lemma round_mono x y : x <= y -> round x <= round y.
Proof.
  intros Hxy.
  destruct (round_cases x) as [[Hx ->]|[[Hx ->]|[Hx ->]]];
    destruct (round_cases y) as [[Hy ->]|[[Hy ->]|[Hy ->]]]; try Lqa.lra.
  - pose proof (round_pos_pos y Hy). Lqa.lra.
  - now apply round_pos_mono.
  - assert (H : 0 < - x) by Lqa.lra. pose proof (round_pos_pos _ H). Lqa.lra.
  - assert (H : 0 < - x) by Lqa.lra. pose proof (round_pos_pos _ H).
    pose proof (round_pos_pos y Hy). Lqa.lra.
  - assert (H : 0 < - y) by Lqa.lra.
    assert (H' : - y <= - x) by Lqa.lra.
    pose proof (round_pos_mono (- y) (- x) H H'). Lqa.lra.
Qed.

(** A timestamp in microseconds that went through [/1000.] and [*1000.]
    is off by less than one. *)
Lemma us_ms_us t :
  (0 <= t < 2 ^ 32)%Z ->
  inject_Z t - 1 < mul (div (inject_Z t) 1000) 1000
  /\ mul (div (inject_Z t) 1000) 1000 < inject_Z t + 1.
Proof.
  intros [H0 H1]. unfold mul, div.
  set (T := inject_Z t).
  assert (HT0 : 0 <= T) by (unfold T; rewrite <- (Zle_Qle 0); exact H0).
  assert (HT1 : T < 4294967296)
    by (unfold T; change 4294967296 with (inject_Z (2 ^ 32));
        rewrite <- Zlt_Qlt; exact H1).
  set (x := T / 1000).
  assert (Hx : x * 1000 == T) by (unfold x; field).
  pose proof (round_error x) as [A1 A2].
  set (a := round x) in *.
  assert (Hax : Qabs x == x) by (apply Qabs_pos; Lqa.lra).
  rewrite Hax in A1, A2.
  pose proof (round_error (a * 1000)) as [B1 B2].
  set (b := round (a * 1000)) in *.
  unfold eps in *.
  assert (Ha0 : 0 <= a * 1000) by Lqa.lra.
  rewrite (Qabs_pos _ Ha0) in B1, B2.
  split; Lqa.lra.
Qed.

End FloatFacts.

(** ** Index arrays *)

Section ArrayFacts.
Context {A : Type}.
Implicit Types (l : list A) (p : A -> bool).

Lemma where_from_range p k l :
  Forall (fun i => (k <= i < k + length l)%nat) (where_from p k l).
Proof.
  revert k; induction l as [|a r IH]; intros k; simpl; [constructor|].
  assert (Hr : Forall (fun i => (k <= i < k + S (length r))%nat)
                 (where_from p (S k) r)).
  { eapply Forall_impl; [|apply IH]. simpl; intros; lia. }
  destruct (p a); [constructor; [lia|]|]; exact Hr.
Qed.

Lemma take_where_from d p k l :
  map (fun i => nth (i - k) l d) (where_from p k l) = filter p l.
Proof.
  revert k; induction l as [|a r IH]; intros k; simpl; [reflexivity|].
  assert (Hr : map (fun i => nth (i - k) (a :: r) d) (where_from p (S k) r)
               = filter p r).
  { rewrite <- (IH (S k)). apply map_ext_in. intros i Hi.
    pose proof (where_from_range p (S k) r) as HF.
    rewrite Forall_forall in HF. specialize (HF i Hi).
    replace (i - k)%nat with (S (i - S k)) by lia. reflexivity. }
  destruct (p a); simpl; [rewrite Nat.sub_diag; f_equal|]; exact Hr.
Qed.

(** Indexing an array with [np.where] of a condition on it keeps the
    elements that satisfy the condition, in their order. *)
Lemma take_np_where d p l : take d l (np_where p l) = filter p l.
Proof.
  unfold take, np_where. rewrite <- (take_where_from d p 0 l).
  apply map_ext. intros i. now rewrite Nat.sub_0_r.
Qed.

Lemma np_where_range p l :
  Forall (fun i => (i < length l)%nat) (np_where p l).
Proof.
  eapply Forall_impl; [|apply (where_from_range p 0 l)]. simpl; intros; lia.
Qed.

Lemma length_where_from p k l :
  length (where_from p k l) = length (filter p l).
Proof.
  revert k; induction l as [|a r IH]; intros k; simpl; [reflexivity|].
  destruct (p a); simpl; now rewrite IH.
Qed.
End ArrayFacts.

Lemma where_from_map {A B : Type} (f : A -> B) (p : B -> bool) k l :
  where_from p k (map f l) = where_from (fun a => p (f a)) k l.
Proof.
  revert k; induction l as [|a r IH]; intros k; simpl; [reflexivity|].
  now rewrite IH.
Qed.

Lemma take_map {A B : Type} (f : A -> B) d l idx :
  take (f d) (map f l) idx = map f (take d l idx).
Proof.
  unfold take. rewrite map_map. apply map_ext. intros i. apply map_nth.
Qed.

Lemma take_take {A : Type} (d : A) l idx idx2 :
  Forall (fun j => (j < length idx)%nat) idx2 ->
  take d l (take O idx idx2) = take d (take d l idx) idx2.
Proof.
  intros H. unfold take. rewrite map_map. apply map_ext_in. intros j Hj.
  rewrite Forall_forall in H. specialize (H j Hj).
  rewrite (nth_indep (map (fun i => nth i l d) idx) d (nth O l d))
    by (rewrite length_map; exact H).
  symmetry. apply (map_nth (fun i => nth i l d)).
Qed.

(** ** The stable sort *)

Section SortFacts.
Context {A : Type}.
Variable leb : A -> A -> bool.
Implicit Types (l s : list A).

Lemma insert_perm x s : Permutation (insert leb x s) (x :: s).
Proof.
  induction s as [|y r IH]; simpl; [reflexivity|].
  destruct (leb x y); [reflexivity|].
  rewrite IH. apply perm_swap.
Qed.

Lemma sorted_perm l : Permutation (sorted leb l) l.
Proof.
  induction l as [|x r IH]; simpl; [reflexivity|].
  rewrite insert_perm. now constructor.
Qed.

Lemma length_sorted l : length (sorted leb l) = length l.
Proof. apply Permutation_length, sorted_perm. Qed.

(** A class [P] of elements that are pairwise [<=] keeps its order. *)
Lemma filter_insert_out (P : A -> bool) x s :
  P x = false -> filter P (insert leb x s) = filter P s.
Proof.
  intros Hx. induction s as [|y r IH]; simpl; [now rewrite Hx|].
  destruct (leb x y); simpl; [now rewrite Hx|]. now rewrite IH.
Qed.

Lemma filter_insert_tie (P : A -> bool) x s :
  P x = true -> (forall y, P y = true -> leb x y = true) ->
  filter P (insert leb x s) = x :: filter P s.
Proof.
  intros Hx Hle. induction s as [|y r IH]; simpl; [now rewrite Hx|].
  destruct (leb x y) eqn:E; simpl; [now rewrite Hx|].
  destruct (P y) eqn:Py; [|exact IH].
  rewrite (Hle y Py) in E. discriminate.
Qed.

Lemma sorted_stable (P : A -> bool) l :
  (forall x y, P x = true -> P y = true -> leb x y = true) ->
  filter P (sorted leb l) = filter P l.
Proof.
  intros Hle. induction l as [|x r IH]; simpl; [reflexivity|].
  destruct (P x) eqn:Px.
  - rewrite filter_insert_tie; [now rewrite IH|exact Px|].
    intros y Py. now apply Hle.
  - rewrite filter_insert_out; assumption.
Qed.

Hypothesis leb_total : forall x y, leb x y = false -> leb y x = true.

Lemma insert_sorted x s :
  Sorted (fun a b => leb a b = true) s ->
  Sorted (fun a b => leb a b = true) (insert leb x s).
Proof.
  induction 1 as [|y r Hr IH Hhd]; simpl; [repeat constructor|].
  destruct (leb x y) eqn:E.
  - constructor; [constructor; assumption|constructor; exact E].
  - constructor; [exact IH|].
    destruct r as [|z r']; simpl.
    + constructor. now apply leb_total.
    + destruct (leb x z); constructor.
      * now apply leb_total.
      * now inversion Hhd.
Qed.

Lemma sorted_Sorted l : Sorted (fun a b => leb a b = true) (sorted leb l).
Proof.
  induction l as [|x r IH]; simpl; [constructor|].
  now apply insert_sorted.
Qed.
End SortFacts.

Lemma insert_ext {A : Type} (leb1 leb2 : A -> A -> bool) x s :
  (forall a b, leb1 a b = leb2 a b) -> insert leb1 x s = insert leb2 x s.
Proof.
  intros H. induction s as [|y r IH]; simpl; [reflexivity|].
  now rewrite H, IH.
Qed.

Lemma sorted_ext {A : Type} (leb1 leb2 : A -> A -> bool) l :
  (forall a b, leb1 a b = leb2 a b) -> sorted leb1 l = sorted leb2 l.
Proof.
  intros H. induction l as [|x r IH]; simpl; [reflexivity|].
  rewrite IH. now apply insert_ext.
Qed.

Lemma insert_map {A B : Type} (f : A -> B) (leb : B -> B -> bool) x s :
  map f (insert (fun a b => leb (f a) (f b)) x s) = insert leb (f x) (map f s).
Proof.
  induction s as [|y r IH]; simpl; [reflexivity|].
  destruct (leb (f x) (f y)); simpl; [reflexivity|]. now rewrite IH.
Qed.

(** Sorting positions by the key found there and then indexing is sorting
    the elements. *)
Lemma sorted_map {A B : Type} (f : A -> B) (leb : B -> B -> bool) l :
  map f (sorted (fun a b => leb (f a) (f b)) l) = sorted leb (map f l).
Proof.
  induction l as [|x r IH]; simpl; [reflexivity|].
  now rewrite insert_map, IH.
Qed.

Lemma take_seq {A : Type} (d : A) l : take d l (seq 0 (length l)) = l.
Proof.
  unfold take. symmetry. apply (nth_ext _ _ d d).
  - now rewrite length_map, length_seq.
  - intros n Hn.
    rewrite (nth_indep (map _ _) d (nth O l d))
      by now rewrite length_map, length_seq.
    rewrite (map_nth (fun i => nth i l d)). now rewrite seq_nth.
Qed.

Lemma take_sorted_index {A : Type} (d : A) (leb : A -> A -> bool) l :
  take d l (sorted (fun i j => leb (nth i l d) (nth j l d)) (seq 0 (length l)))
  = sorted leb l.
Proof.
  unfold take. rewrite (sorted_map (fun i => nth i l d) leb).
  f_equal. apply take_seq.
Qed.

(** ** Decoding *)

Import AER Events.

Lemma trains_of_filter want_pol image_size All i :
  trains_of want_pol (map ev_ts All) (map ev_pol All)
            (map (ev_neuron_id image_size) All) i
  = map ev_ts
      (filter (fun e => ev_pol e =? want_pol)
         (filter (fun e => ev_neuron_id image_size e =? Z.of_nat i) All)).
Proof.
  set (pi := fun e => ev_neuron_id image_size e =? Z.of_nat i).
  set (pp := fun e => ev_pol e =? want_pol).
  assert (Ei : np_where (fun n => n =? Z.of_nat i)
                 (map (ev_neuron_id image_size) All) = np_where pi All)
    by exact (where_from_map (ev_neuron_id image_size)
                (fun n => n =? Z.of_nat i) O All).
  assert (Epol : take 0 (map ev_pol All) (np_where pi All)
                 = map ev_pol (filter pi All)).
  { rewrite <- (take_np_where (0, 0) pi All).
    exact (take_map ev_pol (0, 0) All _). }
  assert (Ep : np_where (fun p => p =? want_pol) (map ev_pol (filter pi All))
               = np_where pp (filter pi All))
    by exact (where_from_map ev_pol (fun p => p =? want_pol) O
                (filter pi All)).
  assert (Hlen : length (np_where pi All) = length (filter pi All))
    by apply length_where_from.
  assert (Hlenp : length (np_where pp (filter pi All))
                  = length (filter pp (filter pi All)))
    by apply length_where_from.
  assert (E : take 0%Q (map ev_ts All)
                (take O (np_where pi All) (np_where pp (filter pi All)))
              = map ev_ts (filter pp (filter pi All))).
  { rewrite <- (take_np_where (0, 0) pp (filter pi All)).
    unfold take. rewrite !map_map. apply map_ext_in. intros j Hj.
    pose proof (np_where_range pp (filter pi All)) as HF.
    rewrite Forall_forall in HF. specialize (HF j Hj).
    pose proof (np_where_range pi All) as HG.
    rewrite Forall_forall in HG.
    assert (Hin : In (nth j (np_where pi All) O) (np_where pi All))
      by (apply nth_In; lia).
    specialize (HG _ Hin).
    rewrite (nth_indep (map ev_ts All) 0%Q (ev_ts (0, 0)))
      by (rewrite length_map; exact HG).
    rewrite map_nth. f_equal.
    rewrite <- (take_np_where (0, 0) pi All). unfold take.
    rewrite (nth_indep (map _ (np_where pi All)) (0, 0)
               (nth O All (0, 0)))
      by (rewrite length_map; lia).
    symmetry. apply (map_nth (fun i0 => nth i0 All (0, 0))). }
  unfold trains_of. rewrite Ei, Epol, Ep, E, Hlenp.
  destruct (filter pp (filter pi All)); reflexivity.
Qed.

(** ** Bytes *)

Lemma byte_val_range b : 0 <= byte_val b < 256.
Proof.
  unfold byte_val. pose proof (Byte.to_N_bounded b). lia.
Qed.

Lemma byte_val_of z : byte_val (byte_of z) = z mod 256.
Proof.
  unfold byte_val, byte_of.
  assert (Hr : 0 <= z mod 256 < 256) by (apply Z.mod_pos_bound; lia).
  destruct (Byte.of_N (Z.to_N (z mod 256))) as [b|] eqn:E.
  - apply Byte.to_of_N in E. rewrite E. lia.
  - apply Byte.of_N_None_iff in E. lia.
Qed.

Lemma be32_to_be32 w :
  0 <= w < u32_modulus ->
  be32 (byte_of (w / 2 ^ 24)) (byte_of (w / 2 ^ 16)) (byte_of (w / 2 ^ 8))
       (byte_of w) = w.
Proof.
  unfold u32_modulus, be32. intros Hw. rewrite !byte_val_of.
  change (2 ^ 24) with 16777216. change (2 ^ 16) with 65536.
  change (2 ^ 8) with 256. change (2 ^ 32) with 4294967296 in Hw.
  Z.to_euclidean_division_equations. lia.
Qed.

Lemma be32_range b0 b1 b2 b3 : 0 <= be32 b0 b1 b2 b3 < u32_modulus.
Proof.
  unfold be32, u32_modulus.
  pose proof (byte_val_range b0). pose proof (byte_val_range b1).
  pose proof (byte_val_range b2). pose proof (byte_val_range b3).
  change (2 ^ 24) with 16777216. change (2 ^ 16) with 65536.
  change (2 ^ 8) with 256. change (2 ^ 32) with 4294967296. lia.
Qed.

Lemma fromfile_tofile ws :
  Forall (fun w => 0 <= w < u32_modulus) ws ->
  fromfile_u4 (tofile_u4 ws) = ws.
Proof.
  induction 1 as [|w r Hw _ IH]; [reflexivity|].
  unfold tofile_u4 in *. simpl. rewrite IH. f_equal.
  now apply be32_to_be32.
Qed.

Lemma fromfile_range bs :
  Forall (fun w => 0 <= w < u32_modulus) (fromfile_u4 bs).
Proof.
  assert (H : forall n bs, (length bs <= n)%nat ->
            Forall (fun w => 0 <= w < u32_modulus) (fromfile_u4 bs)).
  { induction n as [|n IH]; intros l Hl.
    - destruct l; [constructor|simpl in Hl; lia].
    - destruct l as [|b0 [|b1 [|b2 [|b3 r]]]]; try constructor.
      + apply be32_range.
      + apply IH. simpl in Hl. lia. }
  apply (H (length bs)). lia.
Qed.

Lemma readlines_header n h body :
  header_lines n h = true -> readlines n (h ++ body) = body.
Proof.
  revert n; induction h as [|b r IH]; intros n H; simpl in *.
  - apply Nat.eqb_eq in H. now subst.
  - destruct n as [|n]; [discriminate|]. simpl.
    destruct (Byte.eqb b x0a); [now apply IH|].
    exact (IH (S n) H).
Qed.

Lemma rows2_flat_pairs All : rows2 (flat_pairs All) = All.
Proof.
  induction All as [|[a t] r IH]; simpl; [reflexivity|]. now rewrite IH.
Qed.

Lemma even_length_flat_pairs All : Nat.even (length (flat_pairs All)) = true.
Proof.
  induction All as [|[a t] r IH]; simpl; [reflexivity|]. exact IH.
Qed.

Lemma flat_pairs_range All :
  Forall u32_pair All -> Forall (fun w => 0 <= w < u32_modulus) (flat_pairs All).
Proof.
  induction 1 as [|e r [Ha Ht] _ IH]; [constructor|].
  change (flat_pairs (e :: r)) with (fst e :: snd e :: flat_pairs r).
  constructor; [exact Ha|]. constructor; [exact Ht|exact IH].
Qed.

Lemma decode_aer_file h All image_size :
  header_lines 5 h = true -> Forall u32_pair All ->
  aerfile_to_spike (Some (aer_file h All)) image_size
  = Ok (spikes_of_events image_size All).
Proof.
  intros Hh HA. unfold aerfile_to_spike, aer_file.
  rewrite readlines_header by exact Hh.
  rewrite fromfile_tofile by now apply flat_pairs_range.
  unfold reshape2. now rewrite even_length_flat_pairs, rows2_flat_pairs.
Qed.

(** ** Encoding: the parallel arrays are the list of events *)

Lemma extend_with_spec src st i :
  extend_with src st i
  = (fst st ++ map fst (map (fun t => (t, Z.of_nat i)) (nth i src [])),
     snd st ++ map snd (map (fun t => (t, Z.of_nat i)) (nth i src []))).
Proof.
  unfold extend_with. destruct (nth i src []) as [|t r] eqn:E.
  - simpl. rewrite !app_nil_r. now destruct st.
  - rewrite !map_map. f_equal; f_equal.
    + simpl. now rewrite map_id.
    + generalize (t :: r). intros l.
      induction l as [|a l IH]; simpl; [reflexivity|]. now rewrite IH.
Qed.

Lemma collect_spec src n st :
  collect src n st
  = (fst st ++ map fst (flat src n), snd st ++ map snd (flat src n)).
Proof.
  unfold collect, flat. generalize (seq 0 n). intros idx. revert st.
  induction idx as [|i r IH]; intros st; simpl.
  - rewrite !app_nil_r. now destruct st.
  - rewrite IH, extend_with_spec. simpl.
    now rewrite !map_app, !app_assoc.
Qed.

Lemma tagged_columns tag src image_size :
(Z.of_nat (length src) =? image_size * image_size) = true ->
  map time_of (tagged tag src image_size)
    = map fst (flat src (num_neurons image_size))
  /\ map id_of (tagged tag src image_size)
    = map snd (flat src (num_neurons image_size))
  /\ map pol_of (tagged tag src image_size)
    = repeat tag (length (flat src (num_neurons image_size))).
Proof.
  intros H. unfold tagged. rewrite H. rewrite !map_map.
  repeat split; try reflexivity.
  induction (flat src (num_neurons image_size)) as [|a l IH];
    cbn [map length repeat]; [reflexivity|].
  f_equal. exact IH.
Qed.

Lemma gather_spec on off image_size :
  gather on off image_size
  = (map time_of (enc_events on off image_size),
     map id_of (enc_events on off image_size),
     map pol_of (enc_events on off image_size)).
Proof.
  unfold gather, enc_events. rewrite !map_app.
  fold (num_neurons image_size).
  destruct (Z.of_nat (length on) =? image_size * image_size) eqn:Eon;
    destruct (Z.of_nat (length off) =? image_size * image_size) eqn:Eoff.
  - destruct (tagged_columns 0 on image_size Eon) as (T1 & I1 & P1).
    destruct (tagged_columns (-1) off image_size Eoff) as (T2 & I2 & P2).
    rewrite T1, I1, P1, T2, I2, P2. rewrite !collect_spec. simpl.
    rewrite !length_map, !length_app, !length_map, !repeat_length.
    replace (length (flat on (num_neurons image_size))
             + length (flat off (num_neurons image_size))
             - length (flat on (num_neurons image_size)))%nat
      with (length (flat off (num_neurons image_size))) by lia.
    destruct (flat on (num_neurons image_size)) as [|a l]; reflexivity.
  - destruct (tagged_columns 0 on image_size Eon) as (T1 & I1 & P1).
    rewrite T1, I1, P1. unfold tagged. rewrite Eoff.
    rewrite !collect_spec. simpl. now rewrite !app_nil_r, !length_map.
  - destruct (tagged_columns (-1) off image_size Eoff) as (T2 & I2 & P2).
    rewrite T2, I2, P2. unfold tagged. rewrite Eon.
    rewrite !collect_spec. simpl. now rewrite !length_map.
  - unfold tagged. now rewrite Eon, Eoff.
Qed.

Lemma map3_map {E A B C D : Type} (f : A -> B -> C -> D)
    (a : E -> A) (b : E -> B) (c : E -> C) (l : list E) :
  map3 f (map a l) (map b l) (map c l) = map (fun e => f (a e) (b e) (c e)) l.
Proof.
  induction l as [|e r IH]; simpl; [reflexivity|]. now rewrite IH.
Qed.

Lemma interleave_map {E : Type} (a t : E -> Z) (l : list E) :
  interleave (map a l) (map t l) = flat_pairs (map (fun e => (a e, t e)) l).
Proof.
  induction l as [|e r IH]; simpl; [reflexivity|]. now rewrite IH.
Qed.

Lemma sort_index_spec (evs : list enc_event) :
  take no_event evs
    (sorted (fun i j => Qle_bool (nth i (map time_of evs) 0%Q)
                                 (nth j (map time_of evs) 0%Q))
            (seq 0 (length (map time_of evs))))
  = sorted time_leb evs.
Proof.
  rewrite length_map. rewrite <- (take_sorted_index no_event time_leb evs).
  f_equal. apply sorted_ext. intros i j. unfold time_leb.
  now rewrite <- !(map_nth time_of).
Qed.

(** The encoder in terms of its events. *)
Lemma spike_to_aerfile_spec on off now image_size jaer_size :
  spike_to_aerfile on off now image_size jaer_size
  = match enc_events on off image_size with
    | [] => OutputIsEmpty
    | _ :: _ =>
        let s := emitted on off image_size in
        Written (aer_file (header now) (map (pair_of image_size jaer_size) s))
                (map (fun e => to_us (time_of e)) s)
                (map id_of s) (map pol_of s)
    end.
Proof.
  unfold spike_to_aerfile. rewrite gather_spec. cbv beta iota zeta.
  unfold emitted.
  set (evs := enc_events on off image_size).
  destruct evs as [|e0 r] eqn:E; [reflexivity|].
  rewrite <- E.
  replace (0 <? length (map time_of evs))%nat with true
    by (rewrite E; reflexivity).
  set (idx := sorted _ (seq 0 (length (map time_of evs)))).
  assert (Hs : take no_event evs idx = sorted time_leb evs)
    by apply sort_index_spec.
  assert (Ht : take 0%Q (map time_of evs) idx
               = map time_of (sorted time_leb evs))
    by (rewrite <- Hs; exact (take_map time_of no_event evs idx)).
  assert (Hi : take 0 (map id_of evs) idx = map id_of (sorted time_leb evs))
    by (rewrite <- Hs; exact (take_map id_of no_event evs idx)).
  assert (Hp : take 0 (map pol_of evs) idx = map pol_of (sorted time_leb evs))
    by (rewrite <- Hs; exact (take_map pol_of no_event evs idx)).
  rewrite Ht, Hi, Hp. rewrite !map_map.
  f_equal. unfold aer_file. f_equal. f_equal.
  rewrite <- (map_map id_of (fun n => n mod image_size)).
  rewrite <- (map_map id_of (fun n => n / image_size)).
  rewrite !map_map.
  rewrite (map3_map (pack_address jaer_size)).
  rewrite <- (map_map time_of to_us) at 1.
  rewrite map_map.
  exact (interleave_map _ _ _).
Qed.

(** ** Claims about decoding *)

Lemma land_uint32 z m :
  Z.land (Z.ones 32) m = m -> Z.land (uint32 z) m = Z.land z m.
Proof.
  intros Hm. unfold uint32, u32_modulus.
  rewrite <- Z.land_ones by lia. now rewrite <- Z.land_assoc, Hm.
Qed.

Lemma ev_x_claimed e : ev_x e = Claimed.x (fst e).
Proof.
  unfold ev_x, ev_addr, ev_pol, Claimed.x, Claimed.polarity_bit, xmask,
    xshift, polmask.
  now rewrite land_uint32 by reflexivity.
Qed.

Lemma ev_y_claimed e : ev_y e = Claimed.y (fst e).
Proof.
  unfold ev_y, ev_addr, ev_pol, Claimed.y, Claimed.polarity_bit, ymask,
    yshift, polmask.
  now rewrite land_uint32 by reflexivity.
Qed.

Lemma ev_neuron_id_claimed image_size e :
  ev_neuron_id image_size e = Claimed.neuron_id image_size (fst e).
Proof.
  unfold ev_neuron_id, Claimed.neuron_id.
  now rewrite ev_x_claimed, ev_y_claimed.
Qed.

Lemma filter_filter {A : Type} (p q : A -> bool) l :
  filter p (filter q l) = filter (fun a => p a && q a) l.
Proof.
  induction l as [|a r IH]; simpl; [reflexivity|].
  destruct (q a); simpl; rewrite ?IH, ?andb_true_r, ?andb_false_r;
    [destruct (p a)|]; reflexivity.
Qed.

Lemma nth_spikes_on image_size All i :
  (i < num_neurons image_size)%nat ->
  nth i (fst (spikes_of_events image_size All)) []
  = map ev_ts (filter (Claimed.selects image_size 0 i) All)
  /\ nth i (snd (spikes_of_events image_size All)) []
  = map ev_ts (filter (Claimed.selects image_size 1 i) All).
Proof.
  intros Hi. unfold spikes_of_events. cbn [fst snd].
  assert (Hnth : forall (f : nat -> SpikeTrain),
            nth i (map f (seq 0 (num_neurons image_size))) [] = f i).
  { intros f.
    rewrite (nth_indep _ [] (f O)) by now rewrite length_map, length_seq.
    rewrite map_nth. now rewrite seq_nth. }
  rewrite !Hnth, !trains_of_filter, !filter_filter.
  split; f_equal; apply filter_ext; intros e; unfold Claimed.selects;
    now rewrite <- ev_neuron_id_claimed.
Qed.

(** C4.  For a file with a five-line header and events [All], decoding
    returns, for every neuron [i] below [image_size * image_size], as its ON
    train the timestamps of the pairs (address, timestamp) that have
    [address & 1 = 0] and [y * image_size + x = i], and as its OFF train
    those with [address & 1 = 1], in file order, where
    [x = ((address + polarity_bit) & 0xFE) >> 1] and
    [y = ((address + polarity_bit) & 0x7F00) >> 8] are taken after the
    address was incremented by its polarity bit; each timestamp is divided
    by 1000.0 as a float, which keeps the fractional part: the decoded
    time is the number of microseconds over 1000 up to the relative error
    [2^-53] of one rounding. *)
Theorem decode_fields h All image_size :
  header_lines 5 h = true -> Forall u32_pair All ->
  exists on off,
    aerfile_to_spike (Some (aer_file h All)) image_size = Ok (on, off)
    /\ (forall i, (i < num_neurons image_size)%nat ->
          nth i on []
          = map (fun e => Claimed.milliseconds (snd e))
              (filter (Claimed.selects image_size 0 i) All)
          /\ nth i off []
          = map (fun e => Claimed.milliseconds (snd e))
              (filter (Claimed.selects image_size 1 i) All))
    /\ (forall timestamp,
          (0 <= timestamp)%Z ->
          Qabs (Claimed.milliseconds timestamp - inject_Z timestamp / 1000)
          <= inject_Z timestamp / 1000 * Float.eps)%Q.
Proof.
  intros Hh HA.
  exists (fst (spikes_of_events image_size All)),
         (snd (spikes_of_events image_size All)).
  split; [|split].
  - rewrite decode_aer_file by assumption. now rewrite <- surjective_pairing.
  - intros i Hi. exact (nth_spikes_on image_size All i Hi).
  - intros t Ht. unfold Claimed.milliseconds, Float.div.
    assert (H0 : (0 <= inject_Z t / 1000)%Q).
    { apply Qle_shift_div_l; [reflexivity|].
      rewrite Qmult_0_l. now rewrite <- (Zle_Qle 0). }
    pose proof (round_error (inject_Z t / 1000)) as [E1 E2].
    rewrite (Qabs_pos _ H0) in E1, E2.
    apply Qabs_Qle_condition. split; assumption.
Qed.

Lemma length_spikes_of_events image_size All :
  length (fst (spikes_of_events image_size All)) = num_neurons image_size
  /\ length (snd (spikes_of_events image_size All)) = num_neurons image_size.
Proof.
  unfold spikes_of_events. cbn [fst snd].
  now rewrite !length_map, !length_seq.
Qed.

Lemma spikes_of_no_events image_size :
  spikes_of_events image_size []
  = (repeat [] (num_neurons image_size), repeat [] (num_neurons image_size)).
Proof.
  unfold spikes_of_events. cbn [map].
  assert (H : forall p k n,
            map (trains_of p [] [] []) (seq k n) = repeat [] n).
  { intros p k n. revert k.
    induction n as [|n IH]; intros k; simpl; [reflexivity|].
    now rewrite IH. }
  now rewrite !H.
Qed.

(** C2, counterexample.  When no file exists the two sets that come back
    have length 0, not [image_size * image_size]. *)
Lemma decode_missing_file_length :
  aerfile_to_spike None 2 = Ok ([], [])
  /\ length (@nil SpikeTrain) <> num_neurons 2.
Proof. split; [reflexivity|discriminate]. Qed.

(** C2, as the code has it.  When the file exists and holds an even number
    of 32-bit values after its five header lines, decoding returns two sets
    of length [image_size * image_size]; when it holds the header and no
    event, every train of both is empty; when no file exists, decoding
    returns, as a normal value, a pair of empty lists. *)
Theorem decode_lengths image_size :
  (forall bytes,
     Nat.even (length (fromfile_u4 (readlines 5 bytes))) = true ->
     exists on off,
       aerfile_to_spike (Some bytes) image_size = Ok (on, off)
       /\ length on = num_neurons image_size
       /\ length off = num_neurons image_size)
  /\ (forall h,
        header_lines 5 h = true ->
        aerfile_to_spike (Some h) image_size
        = Ok (repeat [] (num_neurons image_size),
              repeat [] (num_neurons image_size)))
  /\ aerfile_to_spike None image_size = Ok ([], []).
Proof.
  split; [|split].
  - intros bytes Heven. unfold aerfile_to_spike, reshape2. rewrite Heven.
    eexists _, _. split; [apply f_equal, surjective_pairing|].
    apply length_spikes_of_events.
  - intros h Hh. unfold aerfile_to_spike.
    rewrite <- (app_nil_r h), (readlines_header 5 h [] Hh).
    cbn [fromfile_u4 reshape2 length Nat.even rows2].
    now rewrite spikes_of_no_events.
  - reflexivity.
Qed.

(** A file with an odd number of 32-bit values makes [np.reshape] raise. *)
Lemma decode_odd_raises bytes image_size :
  Nat.even (length (fromfile_u4 (readlines 5 bytes))) = false ->
  aerfile_to_spike (Some bytes) image_size = Raise ValueError.
Proof.
  intros H. unfold aerfile_to_spike, reshape2. now rewrite H.
Qed.

Lemma filter_implied {A : Type} (p q : A -> bool) l :
  (forall a, p a = true -> q a = true) -> filter p (filter q l) = filter p l.
Proof.
  intros H. rewrite filter_filter. apply filter_ext. intros a.
  destruct (p a) eqn:E; [now rewrite (H a E)|reflexivity].
Qed.

Lemma spikes_of_events_in_image image_size All :
  spikes_of_events image_size (filter (in_image image_size) All)
  = spikes_of_events image_size All.
Proof.
  unfold spikes_of_events.
  assert (H : forall p i, In i (seq 0 (num_neurons image_size)) ->
    trains_of p (map ev_ts (filter (in_image image_size) All))
      (map ev_pol (filter (in_image image_size) All))
      (map (ev_neuron_id image_size) (filter (in_image image_size) All)) i
    = trains_of p (map ev_ts All) (map ev_pol All)
        (map (ev_neuron_id image_size) All) i).
  { intros p i Hi. rewrite !trains_of_filter. do 2 f_equal.
    apply filter_implied. intros e He. unfold in_image.
    apply Z.eqb_eq in He. rewrite He. apply Z.ltb_lt.
    apply in_seq in Hi. unfold num_neurons in Hi. lia. }
  f_equal; apply map_ext_in; intros i Hi; now apply H.
Qed.

(** ** Grouping by neuron keeps the events *)

Lemma filter_split {A : Type} (p q r : A -> bool) l :
  (forall a, r a = p a || q a) -> (forall a, p a = true -> q a = false) ->
  Permutation (filter r l) (filter p l ++ filter q l).
Proof.
  intros Hr Hd. induction l as [|a l IH]; simpl; [reflexivity|].
  rewrite Hr. destruct (p a) eqn:Ep; simpl.
  - rewrite (Hd a Ep). now constructor.
  - destruct (q a); [|exact IH].
    rewrite IH. apply Permutation_middle.
Qed.

Lemma group_by_key {A : Type} (key : A -> Z) l n :
  Permutation
    (flat_map (fun i => filter (fun a => key a =? Z.of_nat i) l) (seq 0 n))
    (filter (fun a => (0 <=? key a) && (key a <? Z.of_nat n)) l).
Proof.
  induction n as [|n IH].
  - simpl. rewrite (filter_ext _ (fun _ => false)).
    + induction l; simpl; auto.
    + intros a. destruct (0 <=? key a) eqn:E; simpl; [|reflexivity].
      apply Z.ltb_ge. apply Z.leb_le in E. exact E.
  - rewrite seq_S, flat_map_app. simpl. rewrite app_nil_r, IH.
    symmetry. apply filter_split.
    + intros a.
      destruct (0 <=? key a) eqn:E0;
        destruct (key a <? Z.of_nat (S n)) eqn:E3;
        destruct (key a <? Z.of_nat n) eqn:E1;
        destruct (key a =? Z.of_nat n) eqn:E2; simpl; try reflexivity;
        rewrite ?Z.leb_le, ?Z.leb_gt, ?Z.ltb_lt, ?Z.ltb_ge, ?Z.eqb_eq,
          ?Z.eqb_neq in *; lia.
    + intros a Ha. apply andb_true_iff in Ha. destruct Ha as [_ Ha].
      apply Z.ltb_lt in Ha. apply Z.eqb_neq. lia.
Qed.

Lemma ev_pol_bit e : ev_pol e = 0 \/ ev_pol e = 1.
Proof.
  unfold ev_pol, polmask.
  assert (H : Z.land (fst e) 1 = fst e mod 2)
    by (apply (Z.land_ones (fst e) 1); lia).
  rewrite H. pose proof (Z.mod_pos_bound (fst e) 2). lia.
Qed.

Lemma flat_spikes_of_events image_size All p
    (sets : SpikeTrainSet) :
  (forall i, (i < num_neurons image_size)%nat ->
     nth i sets [] = map ev_ts (filter (Claimed.selects image_size p i) All)) ->
  Permutation (flat sets (num_neurons image_size))
    (map (fun e => (ev_ts e, ev_neuron_id image_size e))
       (filter (fun e => ev_pol e =? p) (filter (kept image_size) All))).
Proof.
  intros Hn. unfold flat.
  set (l := filter (fun e => ev_pol e =? p) All).
  assert (E : flat_map
            (fun i => map (fun t => (t, Z.of_nat i)) (nth i sets []))
            (seq 0 (num_neurons image_size))
          = map (fun e => (ev_ts e, ev_neuron_id image_size e))
              (flat_map
                 (fun i => filter
                    (fun e => ev_neuron_id image_size e =? Z.of_nat i) l)
                 (seq 0 (num_neurons image_size)))).
  { rewrite flat_map_concat_map, (flat_map_concat_map _ (seq _ _)).
    rewrite concat_map, map_map. f_equal.
    apply map_ext_in. intros i Hi. apply in_seq in Hi.
    rewrite Hn by lia. rewrite map_map. unfold l. rewrite filter_filter.
    rewrite (filter_ext (Claimed.selects image_size p i)
               (fun a => (ev_neuron_id image_size a =? Z.of_nat i)
                         && (ev_pol a =? p))).
    - apply map_ext_in. intros e He. apply filter_In in He.
      destruct He as [_ He]. apply andb_true_iff in He.
      destruct He as [He _]. apply Z.eqb_eq in He. now rewrite He.
    - intros e. unfold Claimed.selects. rewrite <- ev_neuron_id_claimed.
      apply andb_comm. }
  rewrite E. apply Permutation_map.
  rewrite (group_by_key (ev_neuron_id image_size) l).
  unfold l, num_neurons.
  rewrite Z2Nat.id by apply Z.square_nonneg.
  rewrite !filter_filter.
  rewrite (filter_ext _ (fun a => (ev_pol a =? p) && kept image_size a));
    [reflexivity|].
  intros e. apply andb_comm.
Qed.

Lemma filter_true {A : Type} (l : list A) : filter (fun _ => true) l = l.
Proof. induction l as [|a l IH]; simpl; [reflexivity|]. now rewrite IH. Qed.

Lemma split_by_polarity (l : list (Z * Z)) :
  Permutation l
    (filter (fun e => ev_pol e =? 0) l ++ filter (fun e => ev_pol e =? 1) l).
Proof.
  rewrite <- (filter_true l) at 1. apply filter_split.
  - intros e. destruct (ev_pol_bit e) as [H|H]; rewrite H; reflexivity.
  - intros e He. apply Z.eqb_eq in He. now rewrite He.
Qed.

Lemma decoded_triples_perm image_size All :
  Permutation
    (decoded_triples (fst (spikes_of_events image_size All))
       (snd (spikes_of_events image_size All)) (num_neurons image_size))
    (map (decoded_event image_size) (filter (kept image_size) All)).
Proof.
  unfold decoded_triples.
  rewrite (split_by_polarity (filter (kept image_size) All)) at 1.
  rewrite map_app. apply Permutation_app.
  - rewrite (flat_spikes_of_events image_size All 0)
      by (intros i Hi; apply (nth_spikes_on image_size All i Hi)).
    rewrite map_map. apply Permutation_refl'. apply map_ext_in.
    intros e He. apply filter_In in He. destruct He as [_ He].
    apply Z.eqb_eq in He. unfold decoded_event. now rewrite He.
  - rewrite (flat_spikes_of_events image_size All 1)
      by (intros i Hi; apply (nth_spikes_on image_size All i Hi)).
    rewrite map_map. apply Permutation_refl'. apply map_ext_in.
    intros e He. apply filter_In in He. destruct He as [_ He].
    apply Z.eqb_eq in He. unfold decoded_event. now rewrite He.
Qed.

Lemma Forall_filter_keeps {A : Type} (P : A -> Prop) (p : A -> bool) l :
  Forall P l -> Forall P (filter p l).
Proof.
  rewrite !Forall_forall. intros H a Ha. apply filter_In in Ha.
  now apply H.
Qed.

(** C10.  Decoding a file with a five-line header and events [All] raises
    nothing and gives the same two sets as decoding the file without the
    events whose neuron id is [image_size * image_size] or more; the spikes
    of the two sets, counted with neuron and polarity, are exactly the
    events whose neuron id is one of the neurons, so an event with a larger
    id is in neither set. *)
Theorem decode_drops_out_of_image h All image_size :
  header_lines 5 h = true -> Forall u32_pair All ->
  exists on off,
    aerfile_to_spike (Some (aer_file h All)) image_size = Ok (on, off)
    /\ aerfile_to_spike
         (Some (aer_file h (filter (in_image image_size) All))) image_size
       = Ok (on, off)
    /\ Permutation (decoded_triples on off (num_neurons image_size))
         (map (decoded_event image_size) (filter (kept image_size) All))
    /\ (forall e, image_size * image_size <= ev_neuron_id image_size e ->
          in_image image_size e = false /\ kept image_size e = false).
Proof.
  intros Hh HA.
  exists (fst (spikes_of_events image_size All)),
         (snd (spikes_of_events image_size All)).
  rewrite <- surjective_pairing. repeat split.
  - now apply decode_aer_file.
  - rewrite decode_aer_file; [|exact Hh|now apply Forall_filter_keeps].
    now rewrite spikes_of_events_in_image.
  - apply decoded_triples_perm.
  - apply Z.ltb_ge. assumption.
  - unfold kept. apply andb_false_iff. right. now apply Z.ltb_ge.
Qed.

(** ** Claims about encoding *)

(** C5, counterexample.  With one neuron and no spike, nothing is written:
    there is no header-only file. *)
Lemma encode_empty_no_header :
  enc_events [[]] [[]] 1 = []
  /\ written_file (spike_to_aerfile [[]] [[]] "2020-01-01 00:00:00" 1 128)
     <> Some (header "2020-01-01 00:00:00").
Proof. split; [reflexivity|discriminate]. Qed.

(** C5, as the code has it.  When the combined ON and OFF event set is
    empty, encode opens no file, so not even the header is written, and
    returns the empty list (after printing [Output is []]); that value
    differs from the triple returned after a write, which happens exactly
    when there is at least one event. *)
Theorem encode_empty_output on off now image_size jaer_size :
  (enc_events on off image_size = [] ->
     spike_to_aerfile on off now image_size jaer_size = OutputIsEmpty
     /\ written_file (spike_to_aerfile on off now image_size jaer_size)
        = None)
  /\ (enc_events on off image_size <> [] ->
        exists f AllTs neuron_id Polarity,
          spike_to_aerfile on off now image_size jaer_size
          = Written f AllTs neuron_id Polarity
          /\ length AllTs = length (enc_events on off image_size))
  /\ (forall f AllTs neuron_id Polarity,
        OutputIsEmpty <> Written f AllTs neuron_id Polarity).
Proof.
  rewrite spike_to_aerfile_spec. split; [|split].
  - intros H. now rewrite H.
  - intros H. destruct (enc_events on off image_size) as [|e r] eqn:E;
      [contradiction|].
    eexists _, _, _, _. split; [reflexivity|].
    rewrite length_map. unfold emitted. rewrite length_sorted.
    now rewrite E.
  - discriminate.
Qed.

Lemma time_leb_total a b : time_leb a b = false -> time_leb b a = true.
Proof.
  unfold time_leb. intros H. apply Qle_bool_iff.
  apply Qlt_le_weak, Qnot_le_lt. intros Hle.
  apply Qle_bool_iff in Hle. congruence.
Qed.

Lemma Sorted_map {A B : Type} (R : A -> A -> Prop) (S : B -> B -> Prop)
    (f : A -> B) l :
  (forall a b, R a b -> S (f a) (f b)) -> Sorted R l -> Sorted S (map f l).
Proof.
  intros H. induction 1 as [|a l Hl IH Hhd]; simpl; constructor;
    [exact IH|].
  destruct Hhd; simpl; constructor. now apply H.
Qed.

Lemma emitted_sorted on off image_size :
  Sorted (fun a b => (time_of a <= time_of b)%Q) (emitted on off image_size).
Proof.
  unfold emitted.
  rewrite <- (map_id (sorted time_leb _)).
  apply (Sorted_map (fun a b => time_leb a b = true)).
  - intros a b H. now apply Qle_bool_iff.
  - apply sorted_Sorted. exact time_leb_total.
Qed.

Lemma StronglySorted_filter_map {A : Type} (f : A -> Z) (p : A -> bool) l :
  StronglySorted Z.le (map f l) -> StronglySorted Z.le (map f (filter p l)).
Proof.
  induction l as [|a l IH]; simpl; intros H; [constructor|].
  inversion H as [|? ? Hl Ha]; subst.
  destruct (p a); simpl; [constructor|]; auto.
  rewrite Forall_forall in *. intros y Hy. apply Ha.
  apply in_map_iff in Hy. destruct Hy as (e & <- & He).
  apply filter_In in He. apply in_map. tauto.
Qed.

Lemma flat_ids_sorted src k n :
  StronglySorted Z.le
    (map snd (flat_map (fun i => map (fun t : Q => (t, Z.of_nat i))
                                  (nth i src [])) (seq k n)))
  /\ Forall (fun z => Z.of_nat k <= z)
       (map snd (flat_map (fun i => map (fun t : Q => (t, Z.of_nat i))
                                     (nth i src [])) (seq k n))).
Proof.
  revert k; induction n as [|n IH]; intros k; simpl;
    [split; constructor|].
  destruct (IH (S k)) as [Hs Hb].
  rewrite map_app, map_map. simpl.
  induction (nth k src []) as [|t r IHr]; simpl.
  - split; [exact Hs|]. eapply Forall_impl; [|exact Hb]. simpl; lia.
  - destruct IHr as [Hs' Hb']. split; constructor; try lia; assumption.
Qed.

(** Within one polarity the events are appended in neuron-id order. *)
Lemma tagged_ids_sorted tag src image_size :
  StronglySorted Z.le (map id_of (tagged tag src image_size)).
Proof.
  unfold tagged.
  destruct (Z.of_nat (length src) =? image_size * image_size);
    [|constructor].
  rewrite map_map. apply (flat_ids_sorted src 0).
Qed.

Lemma emitted_ceil_sorted on off image_size :
  Sorted Z.le
    (map (fun e => Qceiling (Float.mul (time_of e) 1000))
       (emitted on off image_size)).
Proof.
  apply (Sorted_map (fun a b => (time_of a <= time_of b)%Q)).
  - intros a b H. apply Qceiling_resp_le. apply round_mono.
    apply Qmult_le_compat_r; [exact H|discriminate].
  - apply emitted_sorted.
Qed.

(** When every converted time fits in 32 bits the timestamps of the file
    are themselves non-decreasing. *)
Lemma emitted_us_sorted on off image_size :
  Forall (fun e => 0 <= Qceiling (Float.mul (time_of e) 1000) < u32_modulus)
         (enc_events on off image_size) ->
  Sorted Z.le (map (fun e => to_us (time_of e)) (emitted on off image_size)).
Proof.
  intros H.
  assert (Hs : Forall (fun e => 0 <= Qceiling (Float.mul (time_of e) 1000)
                                < u32_modulus)
                 (emitted on off image_size)).
  { rewrite Forall_forall in *. intros e He. apply H.
    apply (Permutation_in e (sorted_perm time_leb _)). exact He. }
  rewrite (map_ext_in _ (fun e => Qceiling (Float.mul (time_of e) 1000))).
  - apply emitted_ceil_sorted.
  - intros e He. rewrite Forall_forall in Hs. unfold to_us, uint32.
    apply Z.mod_small. now apply Hs.
Qed.

(** C6, counterexample.  The emitted timestamps are not always in
    non-decreasing order, and an OFF event can stand before an ON event
    with the same emitted timestamp.  One neuron with ON spikes at 1 ms and
    4294968 ms: the second time is 4294968000 us, which the cast to 32 bits
    turns into 704, so the timestamps written are 1000, 704.  One neuron
    with an ON spike at 2^-11 ms and an OFF spike at 2^-12 ms: the sort by
    spike time puts the OFF event first, and both times round up to 1 us,
    so the events written are OFF at 1, ON at 1. *)
Lemma encode_timestamps_out_of_order :
  (exists f,
     spike_to_aerfile [[1; 4294968]%Q] [[]] Samples.now 1 128
     = Written f [1000; 704] [0; 0] [0; 0])
  /\ ~ Sorted Z.le [1000; 704]
  /\ (exists f,
        spike_to_aerfile [[(1 # 2048)%Q]] [[(1 # 4096)%Q]] Samples.now 1 128
        = Written f [1; 1] [0; 0] [-1; 0]).
Proof.
  split; [|split].
  - eexists. vm_compute. reflexivity.
  - intros H. inversion H as [|? ? _ Hhd]; subst.
    inversion Hhd as [|? ? Hle]; subst. lia.
  - eexists. vm_compute. reflexivity.
Qed.

(** C6, as the code has it.  What encode emits is the concatenation of
    all ON events followed by all OFF events, sorted by one stable sort on
    the spike time in milliseconds, the value before its conversion: the
    returned arrays and the pairs of the file list the events of
    [emitted], which is a permutation of that concatenation with
    non-decreasing spike times.  When every converted time
    [ceil(t * 1000.)] fits in 32 bits, the emitted timestamps are
    non-decreasing.  The events that share one spike time [t] stand in
    insertion order: the ON ones, then the OFF ones, each group in
    neuron-id order. *)
Theorem encode_stable_sort on off now image_size jaer_size :
  let s := emitted on off image_size in
  (enc_events on off image_size <> [] ->
     spike_to_aerfile on off now image_size jaer_size
     = Written (aer_file (header now) (map (pair_of image_size jaer_size) s))
               (map (fun e => to_us (time_of e)) s)
               (map id_of s) (map pol_of s))
  /\ Permutation s (tagged 0 on image_size ++ tagged (-1) off image_size)
  /\ Sorted (fun a b => (time_of a <= time_of b)%Q) s
  /\ (Forall (fun e => 0 <= Qceiling (Float.mul (time_of e) 1000)
                       < u32_modulus)
        (enc_events on off image_size) ->
      Sorted Z.le (map (fun e => to_us (time_of e)) s))
  /\ (forall t,
        let tie := fun e => Qeq_bool (time_of e) t in
        filter tie s
        = filter tie (tagged 0 on image_size)
          ++ filter tie (tagged (-1) off image_size)
        /\ StronglySorted Z.le
             (map id_of (filter tie (tagged 0 on image_size)))
        /\ StronglySorted Z.le
             (map id_of (filter tie (tagged (-1) off image_size)))).
Proof.
  intros s. split; [|split; [|split; [|split]]].
  - intros H. rewrite spike_to_aerfile_spec.
    destruct (enc_events on off image_size); [contradiction|reflexivity].
  - apply sorted_perm.
  - apply emitted_sorted.
  - apply emitted_us_sorted.
  - intros t tie. split; [|split].
    + unfold s, emitted. rewrite sorted_stable.
      * apply filter_app.
      * intros x y Hx Hy. unfold tie in *. apply Qeq_bool_iff in Hx, Hy.
        unfold time_leb. apply Qle_bool_iff. rewrite Hx, Hy.
        apply Qle_refl.
    + apply StronglySorted_filter_map, tagged_ids_sorted.
    + apply StronglySorted_filter_map, tagged_ids_sorted.
Qed.

(** ** Round trip *)

Lemma unpacks_all :
  forallb (fun x => forallb (fun y => unpacks x y 0 && unpacks x y 1)
                      below128) below128 = true.
Proof. vm_compute. reflexivity. Qed.

Lemma in_below128 z : 0 <= z < 128 -> In z below128.
Proof.
  intros H. unfold below128. apply in_map_iff. exists (Z.to_nat z).
  split; [lia|]. apply in_seq. lia.
Qed.

Lemma unpack_pack x y p t :
  0 <= x < 128 -> 0 <= y < 128 -> p = 0 \/ p = 1 ->
  let a := pack_address 128 x y (- p) in
  ev_pol (a, t) = p /\ ev_x (a, t) = x /\ ev_y (a, t) = y.
Proof.
  intros Hx Hy Hp a.
  pose proof unpacks_all as H. rewrite forallb_forall in H.
  specialize (H x (in_below128 x Hx)). rewrite forallb_forall in H.
  specialize (H y (in_below128 y Hy)).
  apply andb_true_iff in H. destruct H as [H0 H1].
  assert (H : unpacks x y p = true) by (destruct Hp; subst p; assumption).
  unfold unpacks in H.
  apply andb_true_iff in H. destruct H as [H Hy'].
  apply andb_true_iff in H. destruct H as [Hp' Hx'].
  apply Z.eqb_eq in Hp', Hx', Hy'. repeat split; assumption.
Qed.

Lemma ev_x_range e : 0 <= ev_x e < 128.
Proof.
  unfold ev_x, xmask, xshift. rewrite Z.shiftr_land.
  change (Z.shiftr 254 1) with (Z.ones 7). rewrite Z.land_ones by lia.
  apply Z.mod_pos_bound. reflexivity.
Qed.

Lemma ev_y_range e : 0 <= ev_y e < 128.
Proof.
  unfold ev_y, ymask, yshift. rewrite Z.shiftr_land.
  change (Z.shiftr 32512 8) with (Z.ones 7). rewrite Z.land_ones by lia.
  apply Z.mod_pos_bound. reflexivity.
Qed.

(** Row and column recomputed by the encoder from a decoded neuron id fit
    in seven bits each. *)
Lemma recomputed_coordinates image_size e :
  0 <= image_size ->
  ev_neuron_id image_size e < image_size * image_size ->
  0 <= ev_neuron_id image_size e mod image_size < 128
  /\ 0 <= ev_neuron_id image_size e / image_size < 128
  /\ image_size <> 0.
Proof.
  intros HN Hlt. unfold ev_neuron_id in *.
  pose proof (ev_x_range e) as Hx. pose proof (ev_y_range e) as Hy.
  set (x := ev_x e) in *. set (y := ev_y e) in *.
  assert (Hn0 : image_size <> 0) by nia.
  assert (Hnid : 0 <= y * image_size + x) by nia.
  destruct (Z_le_gt_dec image_size 128) as [Hs|Hb].
  - pose proof (Z.mod_pos_bound (y * image_size + x) image_size).
    assert ((y * image_size + x) / image_size < image_size)
      by (apply Z.div_lt_upper_bound; lia).
    assert (0 <= (y * image_size + x) / image_size)
      by (apply Z.div_pos; lia).
    lia.
  - rewrite Z.add_comm, Z.mod_add, Z.div_add by lia.
    rewrite Z.mod_small, Z.div_small by lia. lia.
Qed.

Lemma inject_Z_pred z : inject_Z (z - 1) = (inject_Z z - 1)%Q.
Proof.
  unfold Z.sub. now rewrite inject_Z_plus, inject_Z_opp.
Qed.

(** The rounding shows: this timestamp comes back one microsecond later. *)
Lemma rounding_adds_a_microsecond :
  to_us (ev_ts (6, 4230095570)) = 4230095571.
Proof. vm_compute. reflexivity. Qed.

Lemma last_us_exact :
  to_us (Float.div (inject_Z 4294967295) 1000) = 4294967295.
Proof. vm_compute. reflexivity. Qed.

(** A timestamp that was decoded and is encoded again comes back as itself
    or as one microsecond more, and still fits in 32 bits. *)
Lemma to_us_ev_ts e :
  0 <= snd e < u32_modulus -> snd e <= to_us (ev_ts e) <= snd e + 1.
Proof.
  intros H. unfold ev_ts. unfold u32_modulus in H.
  destruct (Z.eq_dec (snd e) 4294967295) as [E|N].
  - rewrite E, last_us_exact. lia.
  - destruct (us_ms_us (snd e)) as [L U]; [lia|].
    unfold to_us.
    set (b := Float.mul (Float.div (inject_Z (snd e)) 1000) 1000) in *.
    pose proof (Qle_ceiling b) as C1. pose proof (Qceiling_lt b) as C2.
    assert (H1 : snd e - 1 < Qceiling b).
    { rewrite Zlt_Qlt, inject_Z_pred. Lqa.lra. }
    assert (H2 : Qceiling b - 1 < snd e + 1).
    { rewrite inject_Z_pred in C2.
      rewrite Zlt_Qlt, inject_Z_pred, inject_Z_plus.
      change (inject_Z 1) with 1%Q. Lqa.lra. }
    unfold uint32, u32_modulus. rewrite Z.mod_small; lia.
Qed.

Lemma ev_ts_thousand e :
  0 <= snd e < u32_modulus ->
  (Qabs (ev_ts e * 1000 - inject_Z (snd e)) <= 1)%Q.
Proof.
  intros [H0 H1]. unfold ev_ts, Float.div, u32_modulus in *.
  set (T := inject_Z (snd e)).
  assert (HT0 : (0 <= T)%Q) by (unfold T; rewrite <- (Zle_Qle 0); exact H0).
  assert (HT1 : (T < 4294967296)%Q)
    by (unfold T; change 4294967296%Q with (inject_Z (2 ^ 32));
        rewrite <- Zlt_Qlt; exact H1).
  set (x := (T / 1000)%Q).
  assert (Hx : (x * 1000 == T)%Q) by (unfold x; field).
  pose proof (round_error x) as [A1 A2].
  assert (Hax : (Qabs x == x)%Q) by (apply Qabs_pos; Lqa.lra).
  rewrite Hax in A1, A2. unfold Float.eps in *.
  apply Qabs_Qle_condition. split; Lqa.lra.
Qed.

Lemma polarity_of_tag_opp e :
  polarity_of_tag (- ev_pol e) = polarity_of_bit (ev_pol e).
Proof. destruct (ev_pol_bit e) as [H|H]; rewrite H; reflexivity. Qed.

Lemma triple_of_enc_of_pair image_size e :
  u32_pair e ->
  close (triple_of_event (enc_of_pair image_size e))
        (triple_of_pair image_size e).
Proof.
  intros [_ Ht]. unfold triple_of_event, enc_of_pair, triple_of_pair, close.
  cbn [id_of pol_of time_of fst snd].
  rewrite polarity_of_tag_opp. split; [reflexivity|].
  now apply to_us_ev_ts.
Qed.

(** Decoding the pair that the encoder writes for a decoded event gives
    the triple of the original pair, up to the rounding of the time. *)
Lemma triple_of_pair_of image_size e :
  u32_pair e -> 0 <= image_size ->
  ev_neuron_id image_size e < image_size * image_size ->
  close (triple_of_pair image_size
           (pair_of image_size 128 (enc_of_pair image_size e)))
        (triple_of_pair image_size e).
Proof.
  intros [_ Ht] HN Hlt.
  destruct (recomputed_coordinates image_size e HN Hlt) as (Hx & Hy & Hn0).
  unfold pair_of, enc_of_pair. cbn [id_of pol_of time_of fst snd].
  set (nid := ev_neuron_id image_size e) in *.
  destruct (unpack_pack (nid mod image_size) (nid / image_size) (ev_pol e)
              (to_us (ev_ts e)) Hx Hy (ev_pol_bit e)) as (Ep & Ex & Ey).
  unfold triple_of_pair, close. cbn [fst snd]. unfold ev_neuron_id at 1.
  rewrite Ep, Ex, Ey. split.
  - f_equal. fold nid. rewrite Z.mul_comm. symmetry. now apply Z.div_mod.
  - now apply to_us_ev_ts.
Qed.

Lemma Forall2_map_pointwise {A B C : Type} (R : B -> C -> Prop)
    (f : A -> B) (g : A -> C) l :
  (forall a, In a l -> R (f a) (g a)) -> Forall2 R (map f l) (map g l).
Proof.
  induction l as [|a l IH]; intros H; simpl; constructor.
  - apply H. now left.
  - apply IH. intros b Hb. apply H. now right.
Qed.

Lemma tagged_decoded image_size All (sets : SpikeTrainSet) p :
  length sets = num_neurons image_size ->
  (forall i, (i < num_neurons image_size)%nat ->
     nth i sets [] = map ev_ts (filter (Claimed.selects image_size p i) All)) ->
  Permutation (tagged (- p) sets image_size)
    (map (enc_of_pair image_size)
       (filter (fun e => ev_pol e =? p) (filter (kept image_size) All))).
Proof.
  intros Hlen Hn. unfold tagged. rewrite Hlen. unfold num_neurons at 1.
  rewrite Z2Nat.id by apply Z.square_nonneg. rewrite Z.eqb_refl.
  rewrite (flat_spikes_of_events image_size All p sets Hn).
  rewrite map_map. apply Permutation_refl'. apply map_ext_in.
  intros e He. apply filter_In in He. destruct He as [_ He].
  apply Z.eqb_eq in He. unfold enc_of_pair. now rewrite He.
Qed.

Lemma enc_events_decoded image_size All :
  Permutation
    (enc_events (fst (spikes_of_events image_size All))
       (snd (spikes_of_events image_size All)) image_size)
    (map (enc_of_pair image_size) (filter (kept image_size) All)).
Proof.
  unfold enc_events.
  rewrite (split_by_polarity (filter (kept image_size) All)) at 1.
  rewrite map_app. apply Permutation_app.
  - apply (tagged_decoded image_size All _ 0).
    + apply length_spikes_of_events.
    + intros i Hi. apply (nth_spikes_on image_size All i Hi).
  - apply (tagged_decoded image_size All _ 1).
    + apply length_spikes_of_events.
    + intros i Hi. apply (nth_spikes_on image_size All i Hi).
Qed.

Lemma all_kept image_size All :
  0 <= image_size ->
  Forall (fun e => ev_neuron_id image_size e < image_size * image_size) All ->
  filter (kept image_size) All = All.
Proof.
  intros HN H. rewrite <- (filter_true All) at 2. apply filter_ext_in.
  intros e He. rewrite Forall_forall in H. specialize (H e He).
  unfold kept. apply andb_true_iff. split.
  - apply Z.leb_le. unfold ev_neuron_id.
    pose proof (ev_x_range e). pose proof (ev_y_range e). nia.
  - now apply Z.ltb_lt.
Qed.

Lemma pair_of_u32 image_size jaer_size e :
  u32_pair (pair_of image_size jaer_size e).
Proof.
  unfold u32_pair, pair_of, pack_address, to_us, uint32. cbn [fst snd].
  split; apply Z.mod_pos_bound; reflexivity.
Qed.

(** C1.  Take a file with a five-line header [h] and events [All], each a
    pair of 32-bit values whose neuron id is below
    [image_size * image_size].  Decoding it succeeds, and encoding the two
    decoded sets with row stride 128 returns arrays whose (neuron_id,
    polarity, timestamp) triples are the triples of [All] as a multiset,
    each timestamp being the original one or one microsecond more, and
    writes a file, the header followed by pairs of 32-bit values, whose
    triples are the triples of [All] in the same sense; when the file has no
    event nothing is encoded.  Each decoded time, multiplied by 1000, is
    within 1 of the original number of microseconds. *)
Theorem roundtrip_encode_decode h All image_size now :
  header_lines 5 h = true -> Forall u32_pair All -> 0 <= image_size ->
  Forall (fun e => ev_neuron_id image_size e < image_size * image_size) All ->
  exists on off,
    aerfile_to_spike (Some (aer_file h All)) image_size = Ok (on, off)
    /\ Forall (fun e => (Qabs (ev_ts e * 1000 - inject_Z (snd e)) <= 1)%Q) All
    /\ match spike_to_aerfile on off now image_size 128 with
       | Written f AllTs neuron_id Polarity =>
           same_triples (returned_triples AllTs neuron_id Polarity)
             (map (triple_of_pair image_size) All)
           /\ exists All',
                f = aer_file (header now) All'
                /\ Forall u32_pair All'
                /\ same_triples (map (triple_of_pair image_size) All')
                     (map (triple_of_pair image_size) All)
       | OutputIsEmpty => All = []
       end.
Proof.
  intros Hh HA HN Hin.
  set (sp := spikes_of_events image_size All).
  exists (fst sp), (snd sp). split; [|split].
  - rewrite decode_aer_file by assumption. now rewrite <- surjective_pairing.
  - eapply Forall_impl; [|exact HA]. intros e [_ He].
    now apply ev_ts_thousand.
  - pose proof (enc_events_decoded image_size All) as HP. fold sp in HP.
    rewrite (all_kept image_size All HN Hin) in HP.
    rewrite spike_to_aerfile_spec.
    destruct (enc_events (fst sp) (snd sp) image_size) as [|e0 r] eqn:E.
    + apply Permutation_nil in HP. now destruct All.
    + rewrite <- E in HP.
      assert (Hs : Permutation (emitted (fst sp) (snd sp) image_size)
                     (map (enc_of_pair image_size) All)).
      { unfold emitted. now rewrite sorted_perm. }
      cbv zeta. rewrite Forall_forall in HA, Hin. split.
      * exists (map triple_of_event (map (enc_of_pair image_size) All)).
        split.
        -- unfold returned_triples.
           rewrite (map3_map (fun t n p => (n, polarity_of_tag p, t))).
           exact (Permutation_map triple_of_event Hs).
        -- rewrite map_map. apply Forall2_map_pointwise.
           intros e He. apply triple_of_enc_of_pair. now apply HA.
      * eexists. split; [reflexivity|]. split.
        -- apply Forall_forall. intros p Hp. apply in_map_iff in Hp.
           destruct Hp as (e & <- & _). apply pair_of_u32.
        -- exists (map (fun e => triple_of_pair image_size
                                   (pair_of image_size 128 e))
                     (map (enc_of_pair image_size) All)).
           split.
           ++ rewrite map_map. now apply Permutation_map.
           ++ rewrite map_map. apply Forall2_map_pointwise.
              intros e He.
              apply triple_of_pair_of; [now apply HA|exact HN|now apply Hin].
Qed.

(** ** The generator *)

Module PoissonFacts.
Import Poisson.
Local Open Scope R_scope.

Lemma flt_Fin a b : flt (Fin a) (Fin b) = true <-> a < b.
Proof. simpl. destruct (Rlt_dec a b); split; auto; discriminate. Qed.

Lemma flt_Fin_false a b : flt (Fin a) (Fin b) = false <-> b <= a.
Proof.
  simpl. destruct (Rlt_dec a b); split; auto; try discriminate; lra.
Qed.

Lemma neg_log_nonneg u : 0 <= u < 1 -> 0 <= - ln (1 - u).
Proof.
  intros [H0 H1]. destruct (Req_dec_T u 0) as [->|Hn].
  - rewrite Rminus_0_r, ln_1. lra.
  - assert (ln (1 - u) < ln 1) by (apply ln_increasing; lra).
    rewrite ln_1 in *. lra.
Qed.

Lemma rate_positive rate :
  flt (Fin 0) rate = true -> (exists r, rate = Fin r /\ 0 < r) \/ rate = PInf.
Proof.
  destruct rate as [r| | |]; simpl; try discriminate; auto.
  destruct (Rlt_dec 0 r); [|discriminate]. left. eauto.
Qed.

Lemma next_isi_ms u rate :
  flt (Fin 0) rate = true ->
  fmul (nextTime u rate) (Fin 1000) = Fin (isi_ms u rate).
Proof.
  intros H. destruct (rate_positive rate H) as [(r & -> & Hr)| ->].
  - unfold nextTime, fdiv. destruct (Req_dec_T r 0); [lra|reflexivity].
  - reflexivity.
Qed.

Lemma isi_ms_nonneg u rate :
  flt (Fin 0) rate = true -> 0 <= u < 1 -> 0 <= isi_ms u rate.
Proof.
  intros H Hu. pose proof (neg_log_nonneg u Hu) as Hl.
  destruct (rate_positive rate H) as [(r & -> & Hr)| ->]; simpl; [|lra].
  apply Rmult_le_pos; [|lra].
  apply Rmult_le_pos; [exact Hl|]. left. now apply Rinv_0_lt_compat.
Qed.

Lemma StronglySorted_snoc {A : Type} (rel : A -> A -> Prop) l a :
  StronglySorted rel l -> Forall (fun t => rel t a) l ->
  StronglySorted rel (l ++ [a]).
Proof.
  induction 1 as [|b l Hl IH Hb]; intros Ha; simpl.
  - repeat constructor.
  - inversion Ha; subst. constructor; [now apply IH|].
    apply Forall_app. split; [exact Hb|]. now repeat constructor.
Qed.

Section Ordered.
Variable draws : rng.
Variable rate : pyfloat.
Variables t_start t_stop : R.
Hypothesis rate_pos : flt (Fin 0) rate = true.

(** The order that is shown to hold along the train. *)
Variable rel : R -> R -> Prop.
Hypothesis rel_le : forall a b c, rel a b -> b <= c -> rel a c.
Hypothesis rel_step : forall n l, rel l (l + isi_ms (draws n) rate).
Hypothesis isi_nonneg : forall n, 0 <= isi_ms (draws n) rate.

Lemma generate_ordered fuel :
  forall k l ts train k',
    generate fuel draws k rate t_stop (Fin l) (map Fin ts)
    = Some (train, k') ->
    t_start <= l ->
    StronglySorted rel ts ->
    Forall (fun t => t_start <= t < t_stop /\ rel t l) ts ->
    exists ts',
      train = map Fin ts' /\ StronglySorted rel ts'
      /\ Forall (fun t => t_start <= t < t_stop) ts'.
Proof.
  induction fuel as [|fuel IH]; intros k l ts train k' Hg Hl Hs Hf;
    cbn [generate] in Hg; destruct (flt (Fin l) (Fin t_stop)) eqn:E.
  - discriminate.
  - injection Hg as <- <-. exists ts. repeat split; [exact Hs|].
    eapply Forall_impl; [|exact Hf]. simpl; tauto.
  - apply flt_Fin in E. cbv zeta in Hg.
    rewrite next_isi_ms in Hg by exact rate_pos.
    change (map Fin ts ++ [Fin l]) with (map Fin ts ++ map Fin [l]) in Hg.
    rewrite <- map_app in Hg. cbn [fadd] in Hg.
    pose proof (isi_nonneg k) as Hk.
    apply IH in Hg; [exact Hg|lra| |].
    + apply StronglySorted_snoc; [exact Hs|].
      eapply Forall_impl; [|exact Hf]. simpl; tauto.
    + apply Forall_app. split.
      * eapply Forall_impl; [|exact Hf]. simpl. intros t [Ht Hr].
        split; [exact Ht|]. apply (rel_le t l); [exact Hr|lra].
      * constructor; [|constructor].
        split; [lra|apply rel_step].
  - injection Hg as <- <-. exists ts. repeat split; [exact Hs|].
    eapply Forall_impl; [|exact Hf]. simpl; tauto.
Qed.

Lemma poisson_generator_ordered fuel k train k' :
  poisson_generator fuel draws k rate t_start t_stop = Some (train, k') ->
  exists ts,
    train = map Fin ts /\ StronglySorted rel ts
    /\ Forall (fun t => t_start <= t < t_stop) ts.
Proof.
  unfold poisson_generator. rewrite rate_pos. cbv zeta.
  rewrite next_isi_ms by exact rate_pos. cbn [fadd]. intros Hg.
  apply (generate_ordered fuel (S k) _ [] train k' Hg).
  - pose proof (isi_nonneg k). lra.
  - constructor.
  - constructor.
Qed.
End Ordered.

End PoissonFacts.

Import Poisson PoissonFacts.
Local Open Scope R_scope.

Lemma generate_step fuel draws k rate t_stop l train :
  l < t_stop ->
  generate (S fuel) draws k rate t_stop (Fin l) train
  = generate fuel draws (S k) rate t_stop
      (fadd (Fin l) (fmul (nextTime (draws k) rate) (Fin 1000)))
      (train ++ [Fin l]).
Proof.
  intros H. cbn [generate]. apply flt_Fin in H. now rewrite H.
Qed.

Lemma generate_stop fuel draws k rate t_stop l train :
  t_stop <= l ->
  generate fuel draws k rate t_stop (Fin l) train = Some (train, k).
Proof.
  intros H. apply flt_Fin_false in H.
  destruct fuel; cbn [generate]; now rewrite H.
Qed.

Lemma zero_draws_range n : 0 <= zero_draws n < 1.
Proof.
  unfold zero_draws. destruct (n <? 2)%nat; [lra|].
  pose proof (exp_pos (- 1)).
  assert (exp (- 1) < exp 0) by (apply exp_increasing; lra).
  rewrite exp_0 in *. lra.
Qed.

Lemma isi_ms_zero r : isi_ms 0 (Fin r) = 0.
Proof.
  unfold isi_ms. rewrite Rminus_0_r, ln_1. unfold Rdiv. ring.
Qed.

Lemma isi_ms_second : isi_ms (1 - exp (- 1)) (Fin 1) = 1000.
Proof.
  unfold isi_ms. replace (1 - (1 - exp (- 1))) with (exp (- 1)) by ring.
  rewrite ln_exp. field.
Qed.

Lemma one_hertz : flt (Fin 0) (Fin 1) = true.
Proof. apply flt_Fin; lra. Qed.

Lemma zero_draws_run :
  poisson_generator 2 zero_draws 0 (Fin 1) 0 10
  = Some ([Fin 0; Fin 0], 3%nat).
Proof.
  pose proof one_hertz as Hr.
  unfold poisson_generator. rewrite Hr. cbv zeta.
  rewrite next_isi_ms by exact Hr.
  change (zero_draws 0%nat) with 0. rewrite isi_ms_zero. cbn [fadd].
  replace (0 + 0) with 0 by ring.
  rewrite generate_step by lra. rewrite next_isi_ms by exact Hr.
  change (zero_draws 1%nat) with 0. rewrite isi_ms_zero. cbn [fadd app].
  replace (0 + 0) with 0 by ring.
  rewrite generate_step by lra. rewrite next_isi_ms by exact Hr.
  change (zero_draws 2%nat) with (1 - exp (- 1)). rewrite isi_ms_second.
  cbn [fadd app]. rewrite generate_stop by lra. reflexivity.
Qed.

(** C3, counterexample.  At 1 Hz on the window [[0, 10)], when
    [random.random()] returns 0 twice and then a value whose interval
    passes the end of the window, the train holds the spike time 0 twice:
    it is not strictly increasing. *)
Lemma poisson_train_repeats :
  (forall n, 0 <= zero_draws n < 1)
  /\ flt (Fin 0) (Fin 1) = true
  /\ 0 < 10
  /\ poisson_generator 2 zero_draws 0 (Fin 1) 0 10
     = Some ([Fin 0; Fin 0], 3%nat)
  /\ ~ StronglySorted Rlt [0; 0].
Proof.
  split; [exact zero_draws_range|]. split; [exact one_hertz|].
  split; [lra|]. split; [exact zero_draws_run|].
  intros H. inversion H as [|? ? _ Hf]; subst.
  inversion Hf as [|? ? Hlt _]; subst. lra.
Qed.

(** C3, as the code has it.  For a rate above zero, a window with
    [t_start < t_stop] and draws in [[0, 1)], a train that
    [poisson_generator] returns consists of finite times, is non-decreasing,
    and lies in [[t_start, t_stop)].  It need not be strictly increasing:
    an interval can be zero. *)
Theorem poisson_train_ordered fuel draws k rate t_start t_stop train k' :
  (forall n, 0 <= draws n < 1) ->
  flt (Fin 0) rate = true ->
  t_start < t_stop ->
  poisson_generator fuel draws k rate t_start t_stop = Some (train, k') ->
  exists ts,
    train = map Fin ts
    /\ StronglySorted Rle ts
    /\ Forall (fun t => t_start <= t < t_stop) ts.
Proof.
  intros Hd Hr _ Hg.
  assert (Hnn : forall n, 0 <= isi_ms (draws n) rate)
    by (intros n; apply isi_ms_nonneg; auto).
  apply (poisson_generator_ordered draws rate t_start t_stop Hr Rle)
    with (fuel := fuel) (k := k) (k' := k'); try assumption.
  - intros a b c; lra.
  - intros n l. specialize (Hnn n). lra.
Qed.

(** C7.  When the rate is not above zero, [poisson_generator] returns the
    empty train without a draw, whatever the window and the amount of
    fuel; when [t_start >= t_stop] it returns the empty train for every
    rate, after at most the one draw made before the loop. *)
Theorem poisson_empty_train fuel draws k rate t_start t_stop :
  (forall n, 0 <= draws n < 1) ->
  (flt (Fin 0) rate = false ->
     poisson_generator fuel draws k rate t_start t_stop = Some ([], k))
  /\ (t_stop <= t_start ->
        exists k',
          poisson_generator fuel draws k rate t_start t_stop = Some ([], k')
          /\ (k' = k \/ k' = S k)).
Proof.
  intros Hd. split.
  - intros H. unfold poisson_generator. now rewrite H.
  - intros Hw. unfold poisson_generator.
    destruct (flt (Fin 0) rate) eqn:Hr; [|eauto].
    cbv zeta. rewrite next_isi_ms by exact Hr. cbn [fadd].
    pose proof (isi_ms_nonneg (draws k) rate Hr (Hd k)).
    rewrite generate_stop by lra. eauto.
Qed.

(** ** Images to trains *)

Lemma set_nth_middle {A : Type} (pre : list A) a v r :
  set_nth (length pre) v (pre ++ a :: r) = pre ++ v :: r.
Proof.
  induction pre as [|b pre IH]; simpl; [reflexivity|]. now rewrite IH.
Qed.

Lemma overwrite_rows {A : Type} (f : A -> A) (d : A) (post pre : list A) :
  fold_left (fun il i => set_nth i (f (nth i il d)) il)
    (seq (length pre) (length post)) (pre ++ post)
  = pre ++ map f post.
Proof.
  revert pre. induction post as [|a r IH]; intros pre; simpl;
    [reflexivity|].
  rewrite nth_middle, set_nth_middle.
  change (pre ++ f a :: r) with (pre ++ [f a] ++ r).
  rewrite app_assoc.
  replace (S (length pre)) with (length (pre ++ [f a]))
    by (rewrite length_app; simpl; lia).
  rewrite IH. now rewrite <- app_assoc.
Qed.

Lemma normalize_rates image_list max_freq :
  0 < max_freq -> normalize image_list max_freq = map (rates max_freq) image_list.
Proof.
  intros H. unfold normalize. destruct (Rlt_dec 0 max_freq); [|lra].
  exact (overwrite_rows (rates max_freq) [] image_list []).
Qed.

Lemma normalize_unchanged image_list max_freq :
  max_freq <= 0 -> normalize image_list max_freq = image_list.
Proof.
  intros H. unfold normalize. destruct (Rlt_dec 0 max_freq); [lra|].
  reflexivity.
Qed.

(** C9.  When [max_freq > 0] the array the caller passed holds, after the
    call, in every row [i] the values
    [image_list[i] / sum(image_list[i]) * max_freq], and the trains are
    generated from those values; when [max_freq <= 0] the array is as it
    was. *)
Theorem image_list_overwritten fuel draws k image_list image_height
    image_width max_freq duration silence :
  (0 < max_freq ->
     fst (image_to_poisson_trains fuel draws k image_list image_height
            image_width max_freq duration silence)
     = map (fun row => map (fun p => fmul (fdiv p (sum row)) (Fin max_freq))
                         row) image_list
     /\ snd (image_to_poisson_trains fuel draws k image_list image_height
               image_width max_freq duration silence)
        = snd (image_to_poisson_trains fuel draws k
                 (map (rates max_freq) image_list) image_height image_width
                 0 duration silence))
  /\ (max_freq <= 0 ->
        fst (image_to_poisson_trains fuel draws k image_list image_height
               image_width max_freq duration silence)
        = image_list).
Proof.
  unfold image_to_poisson_trains. cbn [fst snd]. split.
  - intros H. rewrite (normalize_rates _ _ H).
    now rewrite (normalize_unchanged _ 0) by lra.
  - intros H. now apply normalize_unchanged.
Qed.


Lemma for_each_returns_each {S : Type} (body : nat -> S -> outcome S) idx :
  forall s s',
    for_each idx body s = Returns s' ->
    forall i, In i idx -> exists s1 s2, body i s1 = Returns s2.
Proof.
  induction idx as [|i r IH]; intros s s' H j Hj; [contradiction|].
  simpl in H. destruct (body i s) as [s1| |] eqn:E; simpl in H;
    try discriminate.
  destruct Hj as [<-|Hj]; [eauto|]. now apply (IH s1 s').
Qed.



Lemma zero_over_zero max_freq : fmul (fdiv (Fin 0) (Fin 0)) (Fin max_freq) = NaN.
Proof.
  unfold fdiv. destruct (Req_dec_T 0 0) as [_|H]; [|lra].
  unfold sign. destruct (Rlt_dec 0 0); [lra|]. reflexivity.
Qed.












(** * The theorems at sample inputs *)

Import Samples.
Local Open Scope Z_scope.

Lemma hdr_lines : header_lines 5 hdr = true.
Proof. vm_compute. reflexivity. Qed.

Lemma events4_u32 : Forall u32_pair events4.
Proof.
  unfold events4, u32_pair, u32_modulus. repeat constructor; simpl; lia.
Qed.

Lemma events3_u32 : Forall u32_pair events3.
Proof.
  unfold events3, u32_pair, u32_modulus. repeat constructor; simpl; lia.
Qed.

Lemma events3_in_image :
  Forall (fun e => ev_neuron_id 2 e < 2 * 2) events3.
Proof. unfold events3. repeat constructor. Qed.

Lemma roundtrip_encode_decode_witness :
  exists on off,
    aerfile_to_spike (Some (aer_file hdr events3)) 2 = Ok (on, off)
    /\ Forall (fun e => (Qabs (ev_ts e * 1000 - inject_Z (snd e)) <= 1)%Q)
         events3
    /\ match spike_to_aerfile on off now 2 128 with
       | Written f AllTs neuron_id Polarity =>
           same_triples (returned_triples AllTs neuron_id Polarity)
             (map (triple_of_pair 2) events3)
           /\ exists All',
                f = aer_file (header now) All'
                /\ Forall u32_pair All'
                /\ same_triples (map (triple_of_pair 2) All')
                     (map (triple_of_pair 2) events3)
       | OutputIsEmpty => events3 = []
       end.
Proof.
  apply (roundtrip_encode_decode hdr events3 2 now).
  - exact hdr_lines.
  - exact events3_u32.
  - lia.
  - exact events3_in_image.
Defined.

Lemma decode_lengths_witness :
  exists on off,
    aerfile_to_spike (Some (aer_file hdr events4)) 2 = Ok (on, off)
    /\ length on = num_neurons 2 /\ length off = num_neurons 2.
Proof.
  destruct (decode_lengths 2) as (H & _ & _).
  apply (H (aer_file hdr events4)). vm_compute. reflexivity.
Defined.

Lemma decode_fields_witness :
  exists on off,
    aerfile_to_spike (Some (aer_file hdr events4)) 2 = Ok (on, off)
    /\ (forall i, (i < num_neurons 2)%nat ->
          nth i on []
          = map (fun e => Claimed.milliseconds (snd e))
              (filter (Claimed.selects 2 0 i) events4)
          /\ nth i off []
          = map (fun e => Claimed.milliseconds (snd e))
              (filter (Claimed.selects 2 1 i) events4))
    /\ (forall timestamp,
          (0 <= timestamp)%Z ->
          Qabs (Claimed.milliseconds timestamp - inject_Z timestamp / 1000)
          <= inject_Z timestamp / 1000 * Float.eps)%Q.
Proof.
  apply (decode_fields hdr events4 2); [exact hdr_lines|exact events4_u32].
Defined.

Lemma decode_drops_out_of_image_witness :
  exists on off,
    aerfile_to_spike (Some (aer_file hdr events4)) 2 = Ok (on, off)
    /\ aerfile_to_spike
         (Some (aer_file hdr (filter (in_image 2) events4))) 2
       = Ok (on, off)
    /\ Permutation (decoded_triples on off (num_neurons 2))
         (map (decoded_event 2) (filter (kept 2) events4))
    /\ (forall e, 2 * 2 <= ev_neuron_id 2 e ->
          in_image 2 e = false /\ kept 2 e = false).
Proof.
  apply (decode_drops_out_of_image hdr events4 2);
    [exact hdr_lines|exact events4_u32].
Defined.

Lemma encode_empty_output_witness :
  spike_to_aerfile [[]] [[]] now 1 128 = OutputIsEmpty
  /\ written_file (spike_to_aerfile [[]] [[]] now 1 128) = None.
Proof.
  destruct (encode_empty_output [[]] [[]] now 1 128) as (H & _ & _).
  apply H. reflexivity.
Defined.

Lemma encode_stable_sort_witness :
  spike_to_aerfile on1 off1 now 1 128
  = Written
      (aer_file (header now) (map (pair_of 1 128) (emitted on1 off1 1)))
      (map (fun e => to_us (time_of e)) (emitted on1 off1 1))
      (map id_of (emitted on1 off1 1)) (map pol_of (emitted on1 off1 1))
  /\ Sorted Z.le (map (fun e => to_us (time_of e)) (emitted on1 off1 1)).
Proof.
  destruct (encode_stable_sort on1 off1 now 1 128) as (H & _ & _ & Hs & _).
  split.
  - apply H. vm_compute. discriminate.
  - apply Hs. unfold on1, off1. cbv [enc_events tagged]. cbn.
    repeat constructor; vm_compute; discriminate.
Defined.

Local Open Scope R_scope.

Lemma poisson_train_ordered_witness :
  exists ts,
    [Fin 0; Fin 0] = map Fin ts
    /\ StronglySorted Rle ts
    /\ Forall (fun t => 0 <= t < 10) ts.
Proof.
  apply (poisson_train_ordered 2 zero_draws 0 (Fin 1) 0 10
           [Fin 0; Fin 0] 3).
  - exact zero_draws_range.
  - exact one_hertz.
  - lra.
  - exact zero_draws_run.
Defined.

Lemma zero_hertz : flt (Fin 0) (Fin 0) = false.
Proof. apply flt_Fin_false; lra. Qed.

Lemma poisson_empty_train_witness :
  poisson_generator 0 zero_draws 0 (Fin 0) 0 10 = Some ([], 0%nat)
  /\ exists k',
       poisson_generator 0 zero_draws 0 (Fin 1) 10 10 = Some ([], k')
       /\ (k' = 0%nat \/ k' = 1%nat).
Proof.
  split.
  - apply (poisson_empty_train 0 zero_draws 0 (Fin 0) 0 10);
      [exact zero_draws_range|exact zero_hertz].
  - apply (poisson_empty_train 0 zero_draws 0 (Fin 1) 10 10);
      [exact zero_draws_range|lra].
Defined.

Lemma sum_zero_pixel : sum [Fin 0] = Fin 0.
Proof. unfold sum; simpl; f_equal; ring. Qed.



Lemma image_list_overwritten_witness :
  fst (image_to_poisson_trains 0 zero_draws 0 [[Fin 1; Fin 3]] 1 2 100 1000 0)
  = [[fmul (fdiv (Fin 1) (sum [Fin 1; Fin 3])) (Fin 100);
      fmul (fdiv (Fin 3) (sum [Fin 1; Fin 3])) (Fin 100)]]
  /\ fst (image_to_poisson_trains 0 zero_draws 0 [[Fin 1; Fin 3]] 1 2 0
            1000 0)
     = [[Fin 1; Fin 3]].
Proof.
  split.
  - destruct (image_list_overwritten 0 zero_draws 0 [[Fin 1; Fin 3]] 1 2
                100 1000 0) as (H & _).
    apply H. lra.
  - destruct (image_list_overwritten 0 zero_draws 0 [[Fin 1; Fin 3]] 1 2
                0 1000 0) as (_ & H).
    apply H. lra.
Defined.


(** * Further properties *)

Import Further.
Local Open Scope Z_scope.

(** ** The codec *)

(** X1.  For every column [x] and row [y] below 128 and either polarity,
    the address that the encoder packs with row stride 128 (tag [0] for
    ON, [-1] for OFF) decodes to the same [x], [y] and polarity bit, and
    so to the neuron [y * image_size + x]. *)
Theorem address_round_trip x y p t image_size :
  0 <= x < 128 -> 0 <= y < 128 -> p = 0 \/ p = 1 ->
  let a := pack_address 128 x y (- p) in
  0 <= a < u32_modulus
  /\ ev_pol (a, t) = p /\ ev_x (a, t) = x /\ ev_y (a, t) = y
  /\ ev_neuron_id image_size (a, t) = y * image_size + x.
Proof.
  intros Hx Hy Hp a.
  destruct (unpack_pack x y p t Hx Hy Hp) as (Ep & Ex & Ey). fold a in Ep, Ex, Ey.
  split; [|repeat split; try assumption].
  - unfold a, pack_address, uint32. apply Z.mod_pos_bound. reflexivity.
  - unfold ev_neuron_id. now rewrite Ex, Ey.
Qed.

Lemma address_round_trip_witness :
  let a := pack_address 128 0 0 (- 1) in
  0 <= a < u32_modulus
  /\ ev_pol (a, 7) = 1 /\ ev_x (a, 7) = 0 /\ ev_y (a, 7) = 0
  /\ ev_neuron_id 28 (a, 7) = 0 * 28 + 0.
Proof.
  apply (address_round_trip 0 0 1 7 28); [lia|lia|now right].
Defined.

Lemma nth_repeat_nil {A : Type} i m : nth i (repeat (@nil A) m) [] = [].
Proof.
  revert i. induction m as [|m IH]; intros [|i]; simpl; auto.
Qed.

Lemma flat_no_spikes n m : flat (repeat [] m) n = [].
Proof.
  unfold flat. induction (seq 0 n) as [|i r IH]; cbn [flat_map];
    [reflexivity|].
  rewrite IH, app_nil_r.
  now rewrite (nth_repeat_nil i m
               : @nth AER.SpikeTrain i (repeat [] m) [] = []).
Qed.

Lemma tagged_mismatch tag src image_size :
  Z.of_nat (length src) <> image_size * image_size ->
  tagged tag src image_size = [].
Proof.
  intros H. unfold tagged.
  destruct (Z.eqb_spec (Z.of_nat (length src)) (image_size * image_size));
    [contradiction|reflexivity].
Qed.

Lemma tagged_silent tag image_size :
  tagged tag (repeat [] (num_neurons image_size)) image_size = [].
Proof.
  unfold tagged. rewrite flat_no_spikes.
  now destruct (_ =? _).
Qed.

Lemma spike_to_aerfile_events on off on' off' now image_size jaer_size :
  enc_events on off image_size = enc_events on' off' image_size ->
  spike_to_aerfile on off now image_size jaer_size
  = spike_to_aerfile on' off' now image_size jaer_size.
Proof.
  intros H. rewrite !spike_to_aerfile_spec. unfold emitted. now rewrite H.
Qed.

(** X2.  A set whose length is not [image_size * image_size] is skipped
    without an error: the call writes and returns what it would for a set
    of [image_size * image_size] empty trains in its place.  This holds
    for the ON set and for the OFF set. *)
Theorem encode_skips_mismatched_set on off now image_size jaer_size :
  (Z.of_nat (length on) <> image_size * image_size ->
     spike_to_aerfile on off now image_size jaer_size
     = spike_to_aerfile (repeat [] (num_neurons image_size)) off now
         image_size jaer_size)
  /\ (Z.of_nat (length off) <> image_size * image_size ->
        spike_to_aerfile on off now image_size jaer_size
        = spike_to_aerfile on (repeat [] (num_neurons image_size)) now
            image_size jaer_size).
Proof.
  split; intros H; apply spike_to_aerfile_events; unfold enc_events.
  - now rewrite (tagged_mismatch 0 on image_size H), tagged_silent.
  - now rewrite (tagged_mismatch (-1) off image_size H), tagged_silent.
Qed.

Lemma encode_skips_mismatched_set_witness :
  spike_to_aerfile [[1%Q]; [2%Q]] [[3%Q]] Samples.now 1 128
  = spike_to_aerfile (repeat [] (num_neurons 1)) [[3%Q]] Samples.now 1 128.
Proof.
  destruct (encode_skips_mismatched_set [[1%Q]; [2%Q]] [[3%Q]] Samples.now
              1 128) as (H & _).
  apply H. discriminate.
Defined.

Lemma flat_times src : map fst (flat src (length src)) = concat src.
Proof.
  unfold flat. rewrite flat_map_concat_map, concat_map, map_map.
  f_equal. etransitivity; [|apply (take_seq [] src)].
  unfold take. apply map_ext. intros i. rewrite map_map. apply map_id.
Qed.

Lemma length_tagged tag src image_size :
  length (tagged tag src image_size) = contributed src image_size.
Proof.
  unfold tagged, contributed.
  destruct (Z.eqb_spec (Z.of_nat (length src)) (image_size * image_size))
    as [E|_]; [|reflexivity].
  unfold num_neurons. rewrite <- E, Nat2Z.id, length_map.
  now rewrite <- (length_map fst), flat_times.
Qed.

Lemma length_emitted on off image_size :
  length (emitted on off image_size)
  = (contributed on image_size + contributed off image_size)%nat.
Proof.
  unfold emitted. rewrite length_sorted. unfold enc_events.
  now rewrite length_app, !length_tagged.
Qed.

Lemma length_tofile_u4 ws : length (tofile_u4 ws) = (4 * length ws)%nat.
Proof.
  unfold tofile_u4. induction ws as [|w r IH]; [reflexivity|].
  cbn [flat_map]. rewrite length_app, IH. simpl. lia.
Qed.

Lemma length_flat_pairs All : length (flat_pairs All) = (2 * length All)%nat.
Proof.
  induction All as [|e r IH]; [reflexivity|].
  change (flat_pairs (e :: r)) with (fst e :: snd e :: flat_pairs r).
  simpl. rewrite IH. lia.
Qed.

(** X3.  When encode writes, each of the three arrays it returns has one
    entry per spike of the sets it accepted (those of length
    [image_size * image_size]), there is at least one such spike, and the
    file is the header followed by exactly eight bytes per spike. *)
Theorem encode_sizes on off now image_size jaer_size f AllTs neuron_id
    Polarity :
  spike_to_aerfile on off now image_size jaer_size
  = Written f AllTs neuron_id Polarity ->
  let n := (contributed on image_size + contributed off image_size)%nat in
  (0 < n)%nat
  /\ length AllTs = n /\ length neuron_id = n /\ length Polarity = n
  /\ length f = (length (header now) + 8 * n)%nat.
Proof.
  rewrite spike_to_aerfile_spec. intros H n.
  pose proof (length_emitted on off image_size) as Hl. fold n in Hl.
  assert (Hn : length (enc_events on off image_size) = n).
  { rewrite <- Hl. unfold emitted. now rewrite length_sorted. }
  destruct (enc_events on off image_size) as [|e r]; [discriminate|].
  cbv zeta in H. injection H as <- <- <- <-.
  rewrite !length_map. unfold aer_file.
  rewrite length_app, length_tofile_u4, length_flat_pairs, length_map, Hl.
  repeat split; try reflexivity; [|lia].
  rewrite <- Hn. simpl. lia.
Qed.

Lemma encode_sizes_witness :
  exists f AllTs neuron_id Polarity,
    spike_to_aerfile Samples.on1 Samples.off1 Samples.now 1 128
    = Written f AllTs neuron_id Polarity
    /\ (0 < 3)%nat
    /\ length AllTs = 3%nat /\ length neuron_id = 3%nat
    /\ length Polarity = 3%nat
    /\ length f = (length (header Samples.now) + 8 * 3)%nat.
Proof.
  eexists _, _, _, _. split; [vm_compute; reflexivity|].
  eapply (encode_sizes Samples.on1 Samples.off1 Samples.now 1 128).
  vm_compute. reflexivity.
Defined.

Lemma tagged_fields tag src image_size :
  Forall (fun e => 0 <= id_of e < image_size * image_size /\ pol_of e = tag)
         (tagged tag src image_size).
Proof.
  unfold tagged.
  destruct (Z.of_nat (length src) =? image_size * image_size);
    [|constructor].
  apply Forall_forall. intros e He. apply in_map_iff in He.
  destruct He as (p & <- & Hp). unfold flat in Hp.
  apply in_flat_map in Hp. destruct Hp as (i & Hi & Hp).
  apply in_map_iff in Hp. destruct Hp as (t & <- & _).
  apply in_seq in Hi. unfold num_neurons in Hi.
  cbn [id_of pol_of fst snd]. split; [lia|reflexivity].
Qed.

(** X4.  Every timestamp and every address that encode writes fits in 32
    bits, every returned neuron id is one of
    [0 .. image_size * image_size - 1], and every returned polarity is [0]
    or [-1]. *)
Theorem encode_output_ranges on off now image_size jaer_size f AllTs
    neuron_id Polarity :
  spike_to_aerfile on off now image_size jaer_size
  = Written f AllTs neuron_id Polarity ->
  Forall (fun t => 0 <= t < u32_modulus) AllTs
  /\ Forall (fun i => 0 <= i < image_size * image_size) neuron_id
  /\ Forall (fun p => p = 0 \/ p = -1) Polarity
  /\ exists All,
       f = aer_file (header now) All /\ Forall u32_pair All
       /\ map snd All = AllTs.
Proof.
  rewrite spike_to_aerfile_spec. intros H.
  destruct (enc_events on off image_size) as [|e0 r] eqn:E; [discriminate|].
  cbv zeta in H. injection H as <- <- <- <-.
  assert (Hf : Forall (fun e => 0 <= id_of e < image_size * image_size
                                /\ (pol_of e = 0 \/ pol_of e = -1))
                 (emitted on off image_size)).
  { apply Forall_forall. intros e He.
    apply (Permutation_in e (sorted_perm time_leb _)) in He.
    unfold enc_events in He. apply in_app_or in He.
    pose proof (tagged_fields 0 on image_size) as H0.
    pose proof (tagged_fields (-1) off image_size) as H1.
    rewrite Forall_forall in H0, H1.
    destruct He as [He|He]; [destruct (H0 e He)|destruct (H1 e He)];
      split; auto. }
  rewrite Forall_forall in Hf. repeat split.
  - apply Forall_forall. intros t Ht. apply in_map_iff in Ht.
    destruct Ht as (e & <- & _). unfold to_us, uint32.
    apply Z.mod_pos_bound. reflexivity.
  - apply Forall_forall. intros i Hi. apply in_map_iff in Hi.
    destruct Hi as (e & <- & He). now apply Hf.
  - apply Forall_forall. intros p Hp. apply in_map_iff in Hp.
    destruct Hp as (e & <- & He). now apply Hf.
  - eexists. split; [reflexivity|]. split.
    + apply Forall_forall. intros p Hp. apply in_map_iff in Hp.
      destruct Hp as (e & <- & _). apply pair_of_u32.
    + now rewrite map_map.
Qed.

Lemma encode_output_ranges_witness :
  exists f AllTs neuron_id Polarity,
    spike_to_aerfile Samples.on1 Samples.off1 Samples.now 1 128
    = Written f AllTs neuron_id Polarity
    /\ Forall (fun t => 0 <= t < u32_modulus) AllTs
    /\ Forall (fun i => 0 <= i < 1 * 1) neuron_id
    /\ Forall (fun p => p = 0 \/ p = -1) Polarity
    /\ exists All,
         f = aer_file (header Samples.now) All /\ Forall u32_pair All
         /\ map snd All = AllTs.
Proof.
  eexists _, _, _, _. split; [vm_compute; reflexivity|].
  eapply (encode_output_ranges Samples.on1 Samples.off1 Samples.now 1 128).
  vm_compute. reflexivity.
Defined.

Lemma length_join a b :
  length a = length b -> length (join a b) = length a.
Proof.
  revert b. induction a as [|x a IH]; intros [|y b] H; simpl in *;
    try discriminate; auto.
Qed.

Lemma nth_join a b i :
  length a = length b ->
  nth i (join a b) [] = nth i a [] ++ nth i b [].
Proof.
  revert b i. induction a as [|x a IH]; intros [|y b] i H; simpl in *;
    try discriminate.
  - now destruct i.
  - destruct i; [reflexivity|]. apply IH. lia.
Qed.

Lemma spikes_of_events_app image_size A B :
  spikes_of_events image_size (A ++ B)
  = (join (fst (spikes_of_events image_size A))
          (fst (spikes_of_events image_size B)),
     join (snd (spikes_of_events image_size A))
          (snd (spikes_of_events image_size B))).
Proof.
  destruct (length_spikes_of_events image_size A) as [LA1 LA2].
  destruct (length_spikes_of_events image_size B) as [LB1 LB2].
  destruct (length_spikes_of_events image_size (A ++ B)) as [L1 L2].
  rewrite (surjective_pairing (spikes_of_events image_size (A ++ B))).
  f_equal.
  - apply (nth_ext _ _ [] []).
    + rewrite length_join; [exact (eq_trans L1 (eq_sym LA1))|].
      exact (eq_trans LA1 (eq_sym LB1)).
    + intros i Hi.
      assert (Hn : (i < num_neurons image_size)%nat)
        by (rewrite <- L1; exact Hi).
      rewrite nth_join by exact (eq_trans LA1 (eq_sym LB1)).
      rewrite !(proj1 (nth_spikes_on image_size _ i Hn)).
      now rewrite filter_app, map_app.
  - apply (nth_ext _ _ [] []).
    + rewrite length_join; [exact (eq_trans L2 (eq_sym LA2))|].
      exact (eq_trans LA2 (eq_sym LB2)).
    + intros i Hi.
      assert (Hn : (i < num_neurons image_size)%nat)
        by (rewrite <- L2; exact Hi).
      rewrite nth_join by exact (eq_trans LA2 (eq_sym LB2)).
      rewrite !(proj2 (nth_spikes_on image_size _ i Hn)).
      now rewrite filter_app, map_app.
Qed.

Lemma Forall_u32_app A B :
  Forall u32_pair A -> Forall u32_pair B -> Forall u32_pair (A ++ B).
Proof. intros HA HB. apply Forall_app. now split. Qed.

(** X5.  Decoding composes with concatenation: the trains decoded from a
    file that holds the events [A] followed by the events [B] are, neuron
    by neuron and for each polarity, the trains decoded from [A] followed
    by the trains decoded from [B]. *)
Theorem decode_append h A B image_size :
  header_lines 5 h = true -> Forall u32_pair A -> Forall u32_pair B ->
  exists onA offA onB offB,
    aerfile_to_spike (Some (aer_file h A)) image_size = Ok (onA, offA)
    /\ aerfile_to_spike (Some (aer_file h B)) image_size = Ok (onB, offB)
    /\ aerfile_to_spike (Some (aer_file h (A ++ B))) image_size
       = Ok (join onA onB, join offA offB).
Proof.
  intros Hh HA HB.
  exists (fst (spikes_of_events image_size A)),
         (snd (spikes_of_events image_size A)),
         (fst (spikes_of_events image_size B)),
         (snd (spikes_of_events image_size B)).
  rewrite !decode_aer_file; try assumption; [|now apply Forall_u32_app].
  rewrite <- !surjective_pairing. repeat split.
  now rewrite spikes_of_events_app.
Qed.

Lemma decode_append_witness :
  exists onA offA onB offB,
    aerfile_to_spike (Some (aer_file Samples.hdr Samples.events4)) 2
    = Ok (onA, offA)
    /\ aerfile_to_spike (Some (aer_file Samples.hdr Samples.events3)) 2
       = Ok (onB, offB)
    /\ aerfile_to_spike
         (Some (aer_file Samples.hdr (Samples.events4 ++ Samples.events3))) 2
       = Ok (join onA onB, join offA offB).
Proof.
  apply (decode_append Samples.hdr Samples.events4 Samples.events3 2).
  - exact hdr_lines.
  - exact events4_u32.
  - exact events3_u32.
Defined.

Lemma StronglySorted_map {A B : Type} (R : A -> A -> Prop)
    (S : B -> B -> Prop) (f : A -> B) l :
  (forall a b, R a b -> S (f a) (f b)) ->
  StronglySorted R l -> StronglySorted S (map f l).
Proof.
  intros H. induction 1 as [|a l Hl IH Ha]; simpl; constructor;
    [exact IH|].
  apply Forall_map. eapply Forall_impl; [|exact Ha]. intros b. apply H.
Qed.

Lemma StronglySorted_filter {A : Type} (R : A -> A -> Prop) p l :
  StronglySorted R l -> StronglySorted R (filter p l).
Proof.
  induction 1 as [|a l Hl IH Ha]; simpl; [constructor|].
  destruct (p a); [constructor|]; auto.
  rewrite Forall_forall in *. intros b Hb. apply filter_In in Hb.
  now apply Ha.
Qed.

Lemma ev_ts_mono e1 e2 : snd e1 <= snd e2 -> (ev_ts e1 <= ev_ts e2)%Q.
Proof.
  intros H. unfold ev_ts, Float.div. apply round_mono.
  apply Qmult_le_compat_r; [|discriminate].
  now rewrite <- Zle_Qle.
Qed.

Lemma StronglySorted_of_map {A B : Type} (S : B -> B -> Prop)
    (f : A -> B) l :
  StronglySorted S (map f l) -> StronglySorted (fun a b => S (f a) (f b)) l.
Proof.
  induction l as [|a l IH]; simpl; intros H; [constructor|].
  inversion H as [|? ? Hl Ha]; subst. constructor; [now apply IH|].
  rewrite Forall_forall in *. intros b Hb. apply Ha. now apply in_map.
Qed.

(** X6.  When the timestamps of a file are in non-decreasing order, as
    they are in a file that encode wrote, every decoded train of either
    polarity is in non-decreasing order. *)
Theorem decode_sorted_trains h All image_size :
  header_lines 5 h = true -> Forall u32_pair All ->
  Sorted Z.le (map snd All) ->
  exists on off,
    aerfile_to_spike (Some (aer_file h All)) image_size = Ok (on, off)
    /\ Forall (StronglySorted Qle) on
    /\ Forall (StronglySorted Qle) off.
Proof.
  intros Hh HA Hs.
  exists (fst (spikes_of_events image_size All)),
         (snd (spikes_of_events image_size All)).
  rewrite decode_aer_file by assumption.
  rewrite <- surjective_pairing. split; [reflexivity|].
  assert (Hss : StronglySorted (fun a b => snd a <= snd b) All).
  { apply StronglySorted_of_map.
    apply Sorted_StronglySorted; [|exact Hs].
    intros a b c. apply Z.le_trans. }
  assert (Ht : forall p i,
            StronglySorted Qle
              (trains_of p (map ev_ts All) (map ev_pol All)
                 (map (ev_neuron_id image_size) All) i)).
  { intros p i. rewrite trains_of_filter.
    apply (StronglySorted_map (fun a b => snd a <= snd b)).
    - intros a b. apply ev_ts_mono.
    - now do 2 apply StronglySorted_filter. }
  unfold spikes_of_events. cbn [fst snd].
  split; apply Forall_map, Forall_forall; intros i _; apply Ht.
Qed.

Lemma events_by_time_sorted :
  Sorted Z.le (map snd [(5, 7); (6, 20); (6, 1500)]).
Proof. repeat constructor; discriminate. Qed.

Lemma events_by_time_u32 : Forall u32_pair [(5, 7); (6, 20); (6, 1500)].
Proof.
  unfold u32_pair, u32_modulus. repeat constructor; simpl; lia.
Qed.

Lemma decode_sorted_trains_witness :
  exists on off,
    aerfile_to_spike
      (Some (aer_file Samples.hdr [(5, 7); (6, 20); (6, 1500)])) 2
    = Ok (on, off)
    /\ Forall (StronglySorted Qle) on
    /\ Forall (StronglySorted Qle) off.
Proof.
  apply (decode_sorted_trains Samples.hdr [(5, 7); (6, 20); (6, 1500)] 2).
  - exact hdr_lines.
  - exact events_by_time_u32.
  - exact events_by_time_sorted.
Defined.


Lemma fromfile_tofile_app ws rest :
  fromfile_u4 (tofile_u4 ws ++ rest)
  = fromfile_u4 (tofile_u4 ws) ++ fromfile_u4 rest.
Proof.
  unfold tofile_u4. induction ws as [|w r IH]; [reflexivity|].
  cbn [flat_map to_be32 app fromfile_u4]. now rewrite IH.
Qed.

Lemma length_fromfile_tofile ws : length (fromfile_u4 (tofile_u4 ws)) = length ws.
Proof.
  unfold tofile_u4. induction ws as [|w r IH]; [reflexivity|].
  cbn [flat_map to_be32 app fromfile_u4 length]. now rewrite IH.
Qed.

Lemma fromfile_short extra : (length extra < 4)%nat -> fromfile_u4 extra = [].
Proof.
  destruct extra as [|b0 [|b1 [|b2 [|b3 r]]]]; simpl; intros H;
    try reflexivity; lia.
Qed.

(** X7.  Up to three bytes left over after the last whole 32-bit value of
    a file are ignored: decoding gives what it gives without them. *)
Theorem decode_ignores_stray_bytes h All extra image_size :
  header_lines 5 h = true -> (length extra < 4)%nat ->
  aerfile_to_spike (Some (aer_file h All ++ extra)) image_size
  = aerfile_to_spike (Some (aer_file h All)) image_size.
Proof.
  intros Hh He. unfold aerfile_to_spike, aer_file.
  rewrite <- app_assoc, !readlines_header by exact Hh.
  now rewrite fromfile_tofile_app, (fromfile_short extra He), app_nil_r.
Qed.

Lemma decode_ignores_stray_bytes_witness :
  aerfile_to_spike
    (Some (aer_file Samples.hdr Samples.events4 ++ [x01; x02; x03])) 2
  = aerfile_to_spike (Some (aer_file Samples.hdr Samples.events4)) 2.
Proof.
  apply (decode_ignores_stray_bytes Samples.hdr Samples.events4
           [x01; x02; x03] 2).
  - exact hdr_lines.
  - simpl. lia.
Defined.

(** X8.  A file that holds an odd number of 32-bit values after its
    header, here whole (address, timestamp) pairs followed by one more
    value, makes decoding raise [ValueError] instead of returning trains. *)
Theorem decode_odd_payload_raises h All w image_size :
  header_lines 5 h = true ->
  aerfile_to_spike (Some (aer_file h All ++ to_be32 w)) image_size
  = Raise ValueError.
Proof.
  intros Hh. unfold aerfile_to_spike, aer_file.
  rewrite <- app_assoc, readlines_header by exact Hh.
  change (to_be32 w) with (tofile_u4 [w] ++ []).
  rewrite app_assoc.
  assert (E : tofile_u4 (flat_pairs All) ++ tofile_u4 [w]
              = tofile_u4 (flat_pairs All ++ [w]))
    by (unfold tofile_u4; now rewrite flat_map_app).
  rewrite E, app_nil_r. unfold reshape2.
  rewrite length_fromfile_tofile, length_app, length_flat_pairs.
  cbn [length].
  replace (2 * length All + 1)%nat with (S (2 * length All)) by lia.
  rewrite Nat.even_succ, <- Nat.negb_even, Nat.even_mul. reflexivity.
Qed.

Lemma decode_odd_payload_raises_witness :
  aerfile_to_spike
    (Some (aer_file Samples.hdr Samples.events4 ++ to_be32 9)) 2
  = Raise ValueError.
Proof.
  apply (decode_odd_payload_raises Samples.hdr Samples.events4 9 2).
  exact hdr_lines.
Defined.

(** X9.  Decoding never looks at what the header says: two files with the
    same bytes after any two five-line headers decode alike, whether the
    result is a pair of sets or an error. *)
Theorem decode_header_not_validated h h' payload image_size :
  header_lines 5 h = true -> header_lines 5 h' = true ->
  aerfile_to_spike (Some (h ++ payload)) image_size
  = aerfile_to_spike (Some (h' ++ payload)) image_size.
Proof.
  intros Hh Hh'. unfold aerfile_to_spike.
  now rewrite !readlines_header by assumption.
Qed.

Lemma decode_header_not_validated_witness :
  aerfile_to_spike
    (Some (Samples.hdr ++ tofile_u4 (flat_pairs Samples.events4))) 2
  = aerfile_to_spike
      (Some ([x0a; x0a; x0a; x0a; x0a]
             ++ tofile_u4 (flat_pairs Samples.events4))) 2.
Proof.
  apply (decode_header_not_validated Samples.hdr [x0a; x0a; x0a; x0a; x0a]).
  - exact hdr_lines.
  - reflexivity.
Defined.


(** ** Decoding what was encoded *)

Lemma bytes_append a b :
  String.list_byte_of_string (String.append a b)
  = String.list_byte_of_string a ++ String.list_byte_of_string b.
Proof.
  unfold String.list_byte_of_string.
  induction a as [|c a IH]; simpl; [reflexivity|]. now rewrite IH.
Qed.

Lemma header_split now :
  header now
  = header_prefix
    ++ (created ++ String.list_byte_of_string now) ++ [x0d; x0a].
Proof.
  unfold header, header_prefix, created, tok5. cbn [String.concat].
  rewrite !bytes_append. rewrite <- !app_assoc. reflexivity.
Qed.

Lemma header_lines_app n m a b :
  header_lines n a = true ->
  header_lines (n + m) (a ++ b) = header_lines m b.
Proof.
  revert n. induction a as [|c r IH]; intros n H; simpl in H.
  - apply Nat.eqb_eq in H. now subst.
  - destruct n as [|n]; [discriminate|]. cbn [app header_lines Nat.add].
    destruct (Byte.eqb c x0a); [now apply IH|].
    exact (IH (S n) H).
Qed.

Lemma one_line l :
  forallb (fun b => negb (Byte.eqb b x0a)) l = true ->
  header_lines 1 (l ++ [x0d; x0a]) = true.
Proof.
  induction l as [|c r IH]; simpl; intros H; [reflexivity|].
  apply andb_true_iff in H. destruct H as [Hc Hr].
  destruct (Byte.eqb c x0a); [discriminate|]. now apply IH.
Qed.

(** The header that encode writes is five lines, unless the creation time
    holds a line feed. *)
Lemma header_five_lines now :
  no_line_feed now = true -> header_lines 5 (header now) = true.
Proof.
  intros H. rewrite header_split.
  change 5%nat with (4 + 1)%nat.
  rewrite header_lines_app by (vm_compute; reflexivity).
  apply one_line. rewrite forallb_app. apply andb_true_iff.
  split; [vm_compute; reflexivity|exact H].
Qed.

Lemma insert_first {A : Type} (leb : A -> A -> bool) x l :
  (forall y, In y l -> leb x y = true) -> insert leb x l = x :: l.
Proof.
  destruct l as [|y r]; simpl; intros H; [reflexivity|].
  now rewrite (H y (or_introl eq_refl)).
Qed.

Section FilterSorted.
Context {A : Type}.
Variable leb : A -> A -> bool.
Hypothesis leb_total : forall x y, leb x y = false -> leb y x = true.
Hypothesis leb_trans :
  forall x y z, leb x y = true -> leb y z = true -> leb x z = true.
Variable P : A -> bool.

Lemma filter_insert_sorted x s :
  StronglySorted (fun a b => leb a b = true) s -> P x = true ->
  filter P (insert leb x s) = insert leb x (filter P s).
Proof.
  intros Hs Hx. induction Hs as [|y r Hr IH Hy]; simpl.
  - now rewrite Hx.
  - destruct (leb x y) eqn:E.
    + cbn [filter]. rewrite Hx. symmetry. apply insert_first.
      intros z Hz. destruct (P y) eqn:Py.
      * destruct Hz as [<-|Hz]; [exact E|].
        apply filter_In in Hz. rewrite Forall_forall in Hy.
        apply (leb_trans x y z E). apply Hy. tauto.
      * apply filter_In in Hz. rewrite Forall_forall in Hy.
        apply (leb_trans x y z E). apply Hy. tauto.
    + cbn [filter]. destruct (P y); [|exact IH].
      cbn [insert]. now rewrite E, IH.
Qed.

Lemma sorted_StronglySorted l :
  StronglySorted (fun a b => leb a b = true) (sorted leb l).
Proof.
  apply Sorted_StronglySorted.
  - intros a b c. apply leb_trans.
  - apply sorted_Sorted. exact leb_total.
Qed.

(** Filtering commutes with the stable sort. *)
Lemma filter_sorted l : filter P (sorted leb l) = sorted leb (filter P l).
Proof.
  induction l as [|x r IH]; simpl; [reflexivity|].
  destruct (P x) eqn:Px.
  - rewrite filter_insert_sorted; [|apply sorted_StronglySorted|exact Px].
    now rewrite IH.
  - rewrite filter_insert_out by exact Px. exact IH.
Qed.
End FilterSorted.

Lemma time_leb_trans x y z :
  time_leb x y = true -> time_leb y z = true -> time_leb x z = true.
Proof.
  unfold time_leb. rewrite !Qle_bool_iff. apply Qle_trans.
Qed.

Lemma filter_map_comm {A B : Type} (f : A -> B) (P : B -> bool) l :
  filter P (map f l) = map f (filter (fun a => P (f a)) l).
Proof.
  induction l as [|a l IH]; simpl; [reflexivity|].
  destruct (P (f a)); simpl; now rewrite IH.
Qed.

Lemma filter_none {A : Type} (P : A -> bool) l :
  (forall a, In a l -> P a = false) -> filter P l = [].
Proof.
  induction l as [|a l IH]; simpl; intros H; [reflexivity|].
  rewrite (H a (or_introl eq_refl)). apply IH. intros b Hb. apply H.
  now right.
Qed.

Lemma filter_all {A : Type} (P : A -> bool) l :
  (forall a, In a l -> P a = true) -> filter P l = l.
Proof.
  induction l as [|a l IH]; simpl; intros H; [reflexivity|].
  rewrite (H a (or_introl eq_refl)). f_equal. apply IH. intros b Hb.
  apply H. now right.
Qed.

(** The spikes of neuron [i] among the flattened spikes of a set. *)
Lemma filter_flat_from src i k n :
  filter (fun p : Q * Z => snd p =? Z.of_nat i)
    (flat_map (fun j => map (fun t => (t, Z.of_nat j)) (nth j src []))
       (seq k n))
  = if ((k <=? i) && (i <? k + n))%nat
    then map (fun t => (t, Z.of_nat i)) (nth i src [])
    else [].
Proof.
  revert k. induction n as [|n IH]; intros k.
  - simpl. replace (i <? k + 0)%nat with (i <? k)%nat by (f_equal; lia).
    destruct (k <=? i)%nat eqn:E1; destruct (i <? k)%nat eqn:E2;
      try reflexivity.
    apply Nat.leb_le in E1. apply Nat.ltb_lt in E2. lia.
  - cbn [seq flat_map]. rewrite filter_app, IH.
    destruct (Nat.eq_dec k i) as [->|Hne].
    + rewrite filter_all.
      * replace ((S i <=? i) && (i <? S i + n))%nat with false.
        -- replace ((i <=? i) && (i <? i + S n))%nat with true.
           ++ now rewrite app_nil_r.
           ++ symmetry. apply andb_true_iff. split;
                [apply Nat.leb_le|apply Nat.ltb_lt]; lia.
        -- symmetry. apply andb_false_iff. left. apply Nat.leb_gt. lia.
      * intros p Hp. apply in_map_iff in Hp. destruct Hp as (t & <- & _).
        apply Z.eqb_refl.
    + rewrite filter_none.
      * assert (Hb : ((S k <=? i) && (i <? S k + n))%nat
                     = ((k <=? i) && (i <? k + S n))%nat).
        { destruct (Nat.leb_spec (S k) i), (Nat.ltb_spec i (S k + n)),
            (Nat.leb_spec k i), (Nat.ltb_spec i (k + S n)); simpl;
            try reflexivity; lia. }
        now rewrite Hb.
      * intros p Hp. apply in_map_iff in Hp. destruct Hp as (t & <- & _).
        apply Z.eqb_neq. cbn [snd]. lia.
Qed.

Lemma filter_flat src i n :
  (i < n)%nat ->
  filter (fun p : Q * Z => snd p =? Z.of_nat i) (flat src n)
  = map (fun t => (t, Z.of_nat i)) (nth i src []).
Proof.
  intros H. unfold flat. rewrite filter_flat_from.
  replace ((0 <=? i) && (i <? 0 + n))%nat with true; [reflexivity|].
  symmetry. apply andb_true_iff. split;
    [apply Nat.leb_le|apply Nat.ltb_lt]; lia.
Qed.

Lemma tagged_matching tag src image_size :
  length src = num_neurons image_size ->
  tagged tag src image_size
  = map (fun p => (p, tag)) (flat src (num_neurons image_size)).
Proof.
  intros H. unfold tagged. rewrite H. unfold num_neurons at 1.
  rewrite Z2Nat.id by apply Z.square_nonneg. now rewrite Z.eqb_refl.
Qed.

Lemma filter_tagged tag src image_size p i :
  length src = num_neurons image_size ->
  (i < num_neurons image_size)%nat ->
  filter (fun e => (pol_of e =? p) && (id_of e =? Z.of_nat i))
         (tagged tag src image_size)
  = if tag =? p
    then map (fun t => (t, Z.of_nat i, tag)) (nth i src [])
    else [].
Proof.
  intros Hl Hi. rewrite tagged_matching by exact Hl.
  rewrite filter_map_comm. cbn [pol_of id_of fst snd].
  destruct (tag =? p) eqn:E.
  - rewrite (filter_ext _ (fun q : Q * Z => snd q =? Z.of_nat i))
      by (intros q; reflexivity).
    rewrite filter_flat by exact Hi. now rewrite map_map.
  - rewrite filter_none; [reflexivity|]. intros q _. reflexivity.
Qed.

Lemma selects_pair_of image_size p i e :
  0 <= image_size <= 128 ->
  0 <= id_of e < image_size * image_size ->
  pol_of e = 0 \/ pol_of e = -1 ->
  Claimed.selects image_size p i (pair_of image_size 128 e)
  = (pol_of e =? - p) && (id_of e =? Z.of_nat i).
Proof.
  intros HN Hid Hpol.
  assert (Hn0 : image_size <> 0) by nia.
  assert (Hx : 0 <= id_of e mod image_size < 128).
  { pose proof (Z.mod_pos_bound (id_of e) image_size). lia. }
  assert (Hy : 0 <= id_of e / image_size < 128).
  { split; [apply Z.div_pos; lia|].
    assert (id_of e / image_size < image_size)
      by (apply Z.div_lt_upper_bound; lia).
    lia. }
  assert (Hp' : - pol_of e = 0 \/ - pol_of e = 1) by lia.
  destruct (unpack_pack (id_of e mod image_size) (id_of e / image_size)
              (- pol_of e) (to_us (time_of e)) Hx Hy Hp') as (Ep & Ex & Ey).
  rewrite Z.opp_involutive in Ep, Ex, Ey.
  unfold Claimed.selects. rewrite <- ev_neuron_id_claimed.
  change (Claimed.polarity_bit (fst (pair_of image_size 128 e)))
    with (ev_pol (pair_of image_size 128 e)).
  unfold ev_neuron_id, pair_of. rewrite Ep, Ex, Ey.
  replace (id_of e / image_size * image_size + id_of e mod image_size)
    with (id_of e)
    by (rewrite Z.mul_comm; now apply Z.div_mod).
  f_equal. destruct (Z.eqb_spec (- pol_of e) p), (Z.eqb_spec (pol_of e) (- p));
    try reflexivity; lia.
Qed.

Lemma sorted_times tag i (train : AER.SpikeTrain) :
  sorted time_leb (map (fun t => (t, Z.of_nat i, tag)) train)
  = map (fun t => (t, Z.of_nat i, tag)) (sorted Qle_bool train).
Proof.
  rewrite <- (sorted_map (fun t : Q => (t, Z.of_nat i, tag)) time_leb).
  f_equal.
Qed.

Lemma emitted_fields on off image_size :
  Forall (fun e => 0 <= id_of e < image_size * image_size
                   /\ (pol_of e = 0 \/ pol_of e = -1))
         (emitted on off image_size).
Proof.
  apply Forall_forall. intros e He.
  apply (Permutation_in e (sorted_perm time_leb _)) in He.
  unfold enc_events in He. apply in_app_or in He.
  pose proof (tagged_fields 0 on image_size) as H0.
  pose proof (tagged_fields (-1) off image_size) as H1.
  rewrite Forall_forall in H0, H1.
  destruct He as [He|He]; [destruct (H0 e He)|destruct (H1 e He)];
    split; auto.
Qed.

(** The train that decoding finds for neuron [i] and polarity bit [p] in the
    pairs written for two full sets. *)
Lemma redecoded_train on off image_size p i :
  0 <= image_size <= 128 ->
  length on = num_neurons image_size ->
  length off = num_neurons image_size ->
  (i < num_neurons image_size)%nat ->
  map ev_ts
    (filter (Claimed.selects image_size p i)
       (map (pair_of image_size 128) (emitted on off image_size)))
  = (if 0 =? - p then redecoded (nth i on []) else [])
    ++ (if -1 =? - p then redecoded (nth i off []) else []).
Proof.
  intros HN Hon Hoff Hi.
  rewrite filter_map_comm.
  rewrite (filter_ext_in _
             (fun e => (pol_of e =? - p) && (id_of e =? Z.of_nat i))).
  - unfold emitted.
    rewrite (filter_sorted time_leb time_leb_total time_leb_trans).
    unfold enc_events. rewrite filter_app.
    rewrite !filter_tagged by assumption.
    destruct (0 =? - p) eqn:E0; destruct (-1 =? - p) eqn:E1.
    + apply Z.eqb_eq in E0, E1. lia.
    + rewrite !app_nil_r, sorted_times, !map_map. reflexivity.
    + cbn [app]. rewrite sorted_times, !map_map. reflexivity.
    + reflexivity.
  - intros e He. pose proof (emitted_fields on off image_size) as Hf.
    rewrite Forall_forall in Hf. destruct (Hf e He) as [Hid Hpol].
    now apply selects_pair_of.
Qed.

Lemma no_spikes_all_empty (src : SpikeTrainSet) :
  length (concat src) = O -> Forall (fun train => train = []) src.
Proof.
  induction src as [|t r IH]; simpl; intros H; [constructor|].
  rewrite length_app in H. constructor.
  - destruct t; [reflexivity|simpl in H; lia].
  - apply IH. lia.
Qed.

Lemma contributed_matching src image_size :
  length src = num_neurons image_size ->
  contributed src image_size = length (concat src).
Proof.
  intros H. unfold contributed. rewrite H. unfold num_neurons.
  rewrite Z2Nat.id by apply Z.square_nonneg. now rewrite Z.eqb_refl.
Qed.

(** X10.  Encode, then decode.  For an image of side at most 128 and two
    sets of [image_size * image_size] trains each, encoded with row stride
    128 and a creation time without a line feed: when there is a spike,
    decoding the file that was written gives back one train per neuron
    and polarity, which is the original train sorted by time with every
    time rounded up to a whole microsecond (kept to 32 bits) and divided
    by 1000; when there is no spike, nothing is written and every train is
    empty. *)
Theorem decode_encoded on off now image_size :
  0 <= image_size <= 128 ->
  length on = num_neurons image_size ->
  length off = num_neurons image_size ->
  no_line_feed now = true ->
  match spike_to_aerfile on off now image_size 128 with
  | Written f _ _ _ =>
      aerfile_to_spike (Some f) image_size
      = Ok (map redecoded on, map redecoded off)
  | OutputIsEmpty =>
      Forall (fun train => train = []) on
      /\ Forall (fun train => train = []) off
  end.
Proof.
  intros HN Hon Hoff Hnow. rewrite spike_to_aerfile_spec.
  pose proof (length_emitted on off image_size) as Hl.
  rewrite !contributed_matching in Hl by assumption.
  unfold emitted in Hl. rewrite length_sorted in Hl.
  destruct (enc_events on off image_size) as [|e0 r] eqn:E.
  - simpl in Hl. split; apply no_spikes_all_empty; lia.
  - cbv beta iota zeta.
    rewrite decode_aer_file.
    + f_equal.
      destruct (length_spikes_of_events image_size
                  (map (pair_of image_size 128)
                     (emitted on off image_size))) as [L1 L2].
      rewrite (surjective_pairing (spikes_of_events _ _)). f_equal.
      * apply (nth_ext _ _ [] []);
          [rewrite length_map; exact (eq_trans L1 (eq_sym Hon))|].
        intros i Hi.
        assert (Hn : (i < num_neurons image_size)%nat)
          by (rewrite <- L1; exact Hi).
        rewrite (proj1 (nth_spikes_on image_size _ i Hn)).
        rewrite (redecoded_train on off image_size 0 i HN Hon Hoff Hn).
        cbn [Z.opp Z.eqb app]. rewrite app_nil_r.
        symmetry. exact (map_nth redecoded on [] i).
      * apply (nth_ext _ _ [] []);
          [rewrite length_map; exact (eq_trans L2 (eq_sym Hoff))|].
        intros i Hi.
        assert (Hn : (i < num_neurons image_size)%nat)
          by (rewrite <- L2; exact Hi).
        rewrite (proj2 (nth_spikes_on image_size _ i Hn)).
        rewrite (redecoded_train on off image_size 1 i HN Hon Hoff Hn).
        cbn [Z.opp Z.eqb app].
        symmetry. exact (map_nth redecoded off [] i).
    + now apply header_five_lines.
    + apply Forall_forall. intros p Hp. apply in_map_iff in Hp.
      destruct Hp as (e & <- & _). apply pair_of_u32.
Qed.

Lemma decode_encoded_witness :
  match spike_to_aerfile Samples.on1 Samples.off1 Samples.now 1 128 with
  | Written f _ _ _ =>
      aerfile_to_spike (Some f) 1
      = Ok (map redecoded Samples.on1, map redecoded Samples.off1)
  | OutputIsEmpty =>
      Forall (fun train => train = []) Samples.on1
      /\ Forall (fun train => train = []) Samples.off1
  end.
Proof.
  apply (decode_encoded Samples.on1 Samples.off1 Samples.now 1).
  - lia.
  - reflexivity.
  - reflexivity.
  - vm_compute. reflexivity.
Defined.


(** ** More on the generator *)

Import FurtherPoisson.
Local Open Scope R_scope.




(** X14.  [nextTime] samples the exponential distribution by inverting
    its distribution function: for a draw [u] in [[0, 1)] and a finite rate
    above zero the interval [x] it returns is finite, is not negative, and
    satisfies [1 - exp (- rate * x) = u]. *)
Theorem nextTime_inverts_cdf u r :
  0 <= u < 1 -> 0 < r ->
  exists x,
    nextTime u (Fin r) = Fin x /\ 0 <= x /\ 1 - exp (- (r * x)) = u.
Proof.
  intros Hu Hr. exists (- ln (1 - u) / r).
  unfold nextTime, fdiv. destruct (Req_dec_T r 0) as [E|_]; [lra|].
  split; [reflexivity|]. split.
  - pose proof (neg_log_nonneg u Hu).
    apply Rmult_le_pos; [assumption|].
    left. now apply Rinv_0_lt_compat.
  - replace (- (r * (- ln (1 - u) / r))) with (ln (1 - u)) by (field; lra).
    rewrite exp_ln by lra. ring.
Qed.

Lemma nextTime_inverts_cdf_witness :
  exists x,
    nextTime (/ 2) (Fin 100) = Fin x /\ 0 <= x
    /\ 1 - exp (- (100 * x)) = / 2.
Proof.
  apply (nextTime_inverts_cdf (/ 2) 100); lra.
Defined.




(** With one-second intervals, a window that is longer than one second
    and not longer than two holds one spike. *)
Lemma second_draws_window k t_start t_stop :
  t_start + 1000 < t_stop -> t_stop <= t_start + 2000 ->
  poisson_generator 1 second_draws k (Fin 1) t_start t_stop
  = Some ([Fin (1000 + t_start)], S (S k)).
Proof.
  intros Hlo Hhi. pose proof one_hertz as Hr.
  unfold poisson_generator. rewrite Hr. cbv zeta.
  rewrite next_isi_ms by exact Hr.
  change (second_draws k) with (1 - exp (- 1)).
  rewrite isi_ms_second. cbn [fadd].
  rewrite generate_step by lra. rewrite next_isi_ms by exact Hr.
  change (second_draws (S k)) with (1 - exp (- 1)).
  rewrite isi_ms_second. cbn [fadd app].
  rewrite generate_stop by lra. reflexivity.
Qed.


Lemma silent_rate fuel draws k rate t_start t_stop :
  flt (Fin 0) rate = false ->
  poisson_generator fuel draws k rate t_start t_stop = Some ([], k).
Proof. intros H. unfold poisson_generator. now rewrite H. Qed.

(** Two images, windows of 1.5 s separated by 0.5 s of silence: the first
    pixel fires once in each window, the second never. *)
Lemma two_images_run :
  snd (image_to_poisson_trains 1 second_draws 0 two_images 1 2 0 1500 500)
  = Returns [[Fin 1000; Fin 3000]; []].
Proof.
  unfold image_to_poisson_trains, two_images.
  rewrite normalize_unchanged by lra.
  cbn [snd length seq for_each Nat.mul Nat.add repeat].
  unfold image_step. cbn [seq for_each nth].
  replace (INR 0 * (1500 + 500)) with 0 by (simpl; ring).
  replace (INR 1 * (1500 + 500)) with 2000 by (simpl; ring).
  replace (0 + 1500) with 1500 by ring.
  replace (2000 + 1500) with 3500 by ring.
  unfold pixel_step. cbn [index nth_error bind snd fst].
  rewrite (second_draws_window 0 0 1500) by lra.
  replace (1000 + 0) with 1000 by ring.
  cbn [bind snd fst nth set_nth app].
  rewrite (silent_rate 1 second_draws 2 (Fin 0) 0 1500)
    by exact zero_hertz.
  cbn [bind snd fst nth set_nth app].
  rewrite (second_draws_window 2 2000 3500) by lra.
  replace (1000 + 2000) with 3000 by ring.
  cbn [bind snd fst nth set_nth app].
  rewrite (silent_rate 1 second_draws 4 (Fin 0) 2000 3500)
    by exact zero_hertz.
  reflexivity.
Qed.

(** ** More on images to trains *)

Lemma for_each_invariant {S : Type} (I : S -> Prop)
    (body : nat -> S -> outcome S) idx :
  (forall i s s', In i idx -> I s -> body i s = Returns s' -> I s') ->
  forall s s', I s -> for_each idx body s = Returns s' -> I s'.
Proof.
  induction idx as [|i r IH]; intros Hb s s' Hs H; simpl in H.
  - now injection H as <-.
  - destruct (body i s) as [s1| |] eqn:E; simpl in H; try discriminate.
    apply (IH (fun j a b Hj => Hb j a b (or_intror Hj)) s1 s');
      [|exact H].
    apply (Hb i s s1); [now left|exact Hs|exact E].
Qed.


Lemma length_set_nth {A : Type} i (v : A) l :
  length (set_nth i v l) = length l.
Proof.
  revert i. induction l as [|a l IH]; intros [|i]; simpl; auto.
Qed.


Lemma nth_set_nth_other {A : Type} i (v d : A) l n :
  n <> i -> nth n (set_nth i v l) d = nth n l d.
Proof.
  revert i n. induction l as [|a l IH]; intros i n H; simpl.
  - now destruct i.
  - destruct i as [|i]; destruct n as [|n]; simpl; try reflexivity;
      try contradiction.
    apply IH. lia.
Qed.

Lemma pixel_step_length fuel draws row t_start t_stop j st st' :
  pixel_step fuel draws row t_start t_stop j st = Returns st' ->
  length (fst st') = length (fst st).
Proof.
  unfold pixel_step, index.
  destruct (nth_error row j) as [rate|]; simpl; [|discriminate].
  destruct (poisson_generator fuel draws (snd st) rate t_start t_stop)
    as [[[|t spikes] k']|]; intros H; try discriminate;
    injection H as <-; cbn [fst]; [reflexivity|apply length_set_nth].
Qed.

Lemma generation_length fuel draws image_list pixels duration silence st st' :
  for_each (seq 0 (length image_list))
    (image_step fuel draws image_list pixels duration silence) st
  = Returns st' ->
  length (fst st') = length (fst st).
Proof.
  apply (for_each_invariant (fun s => length (fst s) = length (fst st)));
    [|reflexivity].
  intros i s s' _ Hs. unfold image_step.
  apply (for_each_invariant (fun x => length (fst x) = length (fst st)));
    [|exact Hs].
  intros j x x' _ Hx Hp. rewrite <- Hx.
  eapply pixel_step_length. exact Hp.
Qed.

(** X15.  When [image_to_poisson_trains] returns, it returns exactly
    [image_height * image_width] trains, whatever the number and the
    width of the images. *)
Theorem trains_length fuel draws k image_list image_height image_width
    max_freq duration silence spike_source_data :
  snd (image_to_poisson_trains fuel draws k image_list image_height
         image_width max_freq duration silence)
  = Returns spike_source_data ->
  length spike_source_data = (image_height * image_width)%nat.
Proof.
  unfold image_to_poisson_trains. cbn [snd].
  destruct (for_each _ _ _) as [st| |] eqn:E; simpl; try discriminate.
  intros H. injection H as <-.
  apply generation_length in E. cbn [fst] in E.
  now rewrite E, repeat_length.
Qed.

Lemma trains_length_witness :
  length [[Fin 1000; Fin 3000]; []] = (1 * 2)%nat.
Proof.
  apply (trains_length 1 second_draws 0 two_images 1 2 0 1500 500
           [[Fin 1000; Fin 3000]; []]).
  exact two_images_run.
Defined.

Lemma normalize_row_lengths image_list max_freq :
  map (@length pyfloat) (normalize image_list max_freq)
  = map (@length pyfloat) image_list.
Proof.
  destruct (Rlt_dec 0 max_freq) as [H|H].
  - rewrite normalize_rates by exact H. rewrite map_map.
    apply map_ext. intros row. unfold rates. apply length_map.
  - rewrite normalize_unchanged by lra. reflexivity.
Qed.

Lemma pixel_step_in_row fuel draws row t_start t_stop j st st' :
  pixel_step fuel draws row t_start t_stop j st = Returns st' ->
  (j < length row)%nat.
Proof.
  unfold pixel_step, index.
  destruct (nth_error row j) as [rate|] eqn:E; simpl; [|discriminate].
  intros _. apply nth_error_Some. congruence.
Qed.

(** X16.  A normal return means that no image was too narrow: when
    [image_to_poisson_trains] returns, every image holds at least
    [image_height * image_width] pixels.  An image with fewer makes the
    lookup of a pixel raise, so the call does not return. *)
Theorem returns_needs_full_rows fuel draws k image_list image_height
    image_width max_freq duration silence spike_source_data :
  snd (image_to_poisson_trains fuel draws k image_list image_height
         image_width max_freq duration silence)
  = Returns spike_source_data ->
  Forall (fun row => (image_height * image_width <= length row)%nat)
         image_list.
Proof.
  unfold image_to_poisson_trains. cbn [snd].
  set (il := normalize image_list max_freq).
  set (pixels := (image_height * image_width)%nat).
  destruct (for_each _ _ _) as [st| |] eqn:E; simpl; try discriminate.
  intros _.
  assert (Hrows : forall i, (i < length il)%nat ->
                    (pixels <= length (nth i il []))%nat).
  { intros i Hi. destruct pixels as [|p] eqn:Ep; [lia|].
    destruct (for_each_returns_each _ _ _ _ E i) as (s1 & s2 & Hs);
      [apply in_seq; lia|].
    unfold image_step in Hs.
    destruct (for_each_returns_each _ _ _ _ Hs p) as (x1 & x2 & Hx);
      [apply in_seq; lia|].
    apply pixel_step_in_row in Hx. lia. }
  pose proof (normalize_row_lengths image_list max_freq) as Hl.
  fold il in Hl.
  assert (Hlen : length il = length image_list).
  { rewrite <- (length_map (@length pyfloat) il), Hl. apply length_map. }
  apply Forall_forall. intros row Hrow.
  destruct (In_nth _ _ [] Hrow) as (i & Hi & <-).
  specialize (Hrows i ltac:(lia)).
  assert (E2 : length (nth i il []) = length (nth i image_list [])).
  { change (length (nth i il []))
      with (length (nth i il (@nil pyfloat))).
    rewrite <- (map_nth (@length pyfloat) il [] i).
    rewrite <- (map_nth (@length pyfloat) image_list [] i).
    now rewrite Hl. }
  lia.
Qed.

Lemma returns_needs_full_rows_witness :
  Forall (fun row : list pyfloat => (1 * 1 <= length row)%nat) [[Fin 0]].
Proof.
  apply (returns_needs_full_rows 0 zero_draws 0 [[Fin 0]] 1 1 100 1000 0
           [[]]).
  unfold image_to_poisson_trains. rewrite normalize_rates by lra.
  cbn [map]. unfold rates. rewrite sum_zero_pixel. cbn [map].
  rewrite zero_over_zero. reflexivity.
Defined.












Lemma pixel_step_silent fuel draws row t_start t_stop j j'
    (st st' : gen_state) :
  (forall rate, nth_error row j = Some rate -> flt (Fin 0) rate = false) ->
  nth j (fst st) [] = [] ->
  pixel_step fuel draws row t_start t_stop j' st = Returns st' ->
  nth j (fst st') [] = [].
Proof.
  intros Hrate Hst H. unfold pixel_step, index in H.
  destruct (nth_error row j') as [rate|] eqn:Er; cbn [bind] in H;
    [|discriminate H].
  destruct (poisson_generator fuel draws (snd st) rate t_start t_stop)
    as [[spikes k']|] eqn:Hg; [|discriminate H].
  destruct spikes as [|t spikes]; injection H as <-; cbn [fst];
    [exact Hst|].
  destruct (Nat.eq_dec j j') as [<-|Hne].
  - unfold poisson_generator in Hg. rewrite (Hrate rate Er) in Hg.
    discriminate.
  - rewrite nth_set_nth_other by exact Hne. exact Hst.
Qed.

(** X18.  A neuron whose rate is not above zero in any image never fires:
    if in the array as the call leaves it (the rates it generated from)
    entry [j] of every image is zero, negative or NaN, then train [j] of
    the result is empty. *)
Theorem silent_pixel fuel draws k image_list image_height image_width
    max_freq duration silence spike_source_data j :
  Forall (fun row => forall rate,
            nth_error row j = Some rate -> flt (Fin 0) rate = false)
         (fst (image_to_poisson_trains fuel draws k image_list image_height
                 image_width max_freq duration silence)) ->
  snd (image_to_poisson_trains fuel draws k image_list image_height
         image_width max_freq duration silence)
  = Returns spike_source_data ->
  nth j spike_source_data [] = [].
Proof.
  unfold image_to_poisson_trains. cbn [fst snd].
  set (il := normalize image_list max_freq). intros Hrows.
  destruct (for_each _ _ _) as [st| |] eqn:E; simpl; try discriminate.
  intros H. injection H as <-.
  revert E.
  apply (for_each_invariant (fun s => nth j (fst s) [] = [])).
  - intros i s s' Hi Hs. unfold image_step.
    apply (for_each_invariant (fun x => nth j (fst x) [] = [])); [|exact Hs].
    intros j' x x' _ Hx. apply pixel_step_silent; [|exact Hx].
    rewrite Forall_forall in Hrows. apply Hrows. apply nth_In.
    apply in_seq in Hi. lia.
  - cbn [fst]. exact (nth_repeat_nil j _).
Qed.

Lemma silent_pixel_witness :
  nth 0 [[]] [] = @nil pyfloat.
Proof.
  apply (silent_pixel 0 zero_draws 0 [[Fin 0]] 1 1 100 1000 0 [[]] 0).
  - unfold image_to_poisson_trains. cbn [fst].
    rewrite normalize_rates by lra. cbn [map]. unfold rates.
    rewrite sum_zero_pixel. cbn [map]. rewrite zero_over_zero.
    constructor; [|constructor].
    intros rate H. injection H as <-. reflexivity.
  - unfold image_to_poisson_trains. rewrite normalize_rates by lra.
    cbn [map]. unfold rates. rewrite sum_zero_pixel. cbn [map].
    rewrite zero_over_zero. reflexivity.
Defined.


Lemma fold_fadd_fin ps a :
  fold_left fadd (map Fin ps) (Fin a) = Fin (a + total ps).
Proof.
  revert a. induction ps as [|p ps IH]; intros a; simpl.
  - f_equal. ring.
  - rewrite IH. f_equal. unfold total. simpl. ring.
Qed.

Lemma sum_fin ps : sum (map Fin ps) = Fin (total ps).
Proof.
  unfold sum. rewrite fold_fadd_fin. f_equal. ring.
Qed.

Lemma rates_fin max_freq ps :
  total ps <> 0 ->
  rates max_freq (map Fin ps)
  = map Fin (map (fun p => p / total ps * max_freq) ps).
Proof.
  intros H. unfold rates. rewrite sum_fin, !map_map.
  apply map_ext. intros p. unfold fdiv.
  destruct (Req_dec_T (total ps) 0); [contradiction|reflexivity].
Qed.

Lemma total_scaled c ps : total (map (fun p => p * c) ps) = total ps * c.
Proof.
  unfold total. induction ps as [|p ps IH]; simpl; [ring|].
  rewrite IH. ring.
Qed.

Lemma total_bounds ps p :
  Forall (fun q => 0 <= q) ps -> In p ps -> 0 <= p <= total ps.
Proof.
  unfold total. induction 1 as [|q ps Hq Hps IH]; intros Hin;
    [contradiction|].
  simpl.
  assert (Ht : 0 <= fold_right Rplus 0 ps).
  { clear -Hps. induction Hps; simpl; lra. }
  destruct Hin as [->|Hin]; [lra|]. specialize (IH Hin). lra.
Qed.

(** X19.  The normalisation turns intensities into rates that share
    [max_freq]: for an image of finite, non-negative pixels with a
    positive sum and [max_freq > 0], every rate is finite and lies between
    0 and [max_freq], a zero pixel gets the rate 0, and, in exact
    arithmetic, the rates of the image add up to [max_freq]. *)
Theorem rates_share_max_freq max_freq ps :
  0 < max_freq -> Forall (fun p => 0 <= p) ps -> 0 < total ps ->
  exists rs,
    rates max_freq (map Fin ps) = map Fin rs
    /\ sum (map Fin rs) = Fin max_freq
    /\ Forall (fun r => 0 <= r <= max_freq) rs
    /\ Forall2 (fun p r => p = 0 -> r = 0) ps rs.
Proof.
  intros Hm Hps Ht.
  exists (map (fun p => p / total ps * max_freq) ps).
  split; [apply rates_fin; lra|]. split; [|split].
  - rewrite sum_fin. f_equal.
    rewrite (map_ext _ (fun p => p * (/ total ps * max_freq)))
      by (intros p; unfold Rdiv; ring).
    rewrite total_scaled. field. lra.
  - apply Forall_forall. intros r Hr. apply in_map_iff in Hr.
    destruct Hr as (p & <- & Hp).
    destruct (total_bounds ps p Hps Hp) as [H0 H1].
    assert (Hi : 0 < / total ps) by now apply Rinv_0_lt_compat.
    assert (Hq : 0 <= p / total ps <= 1).
    { unfold Rdiv. split; [nra|].
      apply (Rmult_le_reg_r (total ps)); [exact Ht|].
      rewrite Rmult_assoc, Rinv_l by lra. lra. }
    split; nra.
  - clear. generalize (total ps). intros s.
    induction ps as [|p ps IH]; simpl; [constructor|].
    constructor; [|exact IH].
    intros ->. unfold Rdiv. ring.
Qed.

Lemma rates_share_max_freq_witness :
  exists rs,
    rates 100 (map Fin [1; 3]) = map Fin rs
    /\ sum (map Fin rs) = Fin 100
    /\ Forall (fun r => 0 <= r <= 100) rs
    /\ Forall2 (fun p r => p = 0 -> r = 0) [1; 3] rs.
Proof.
  apply (rates_share_max_freq 100 [1; 3]).
  - lra.
  - repeat constructor; lra.
  - unfold total. simpl. lra.
Defined.

Local Open Scope Z_scope.

Lemma readlines_nil n : readlines n [] = [].
Proof. induction n as [|n IH]; simpl; auto. Qed.

Lemma readline_line_feeds f :
  (line_feeds f = 0%nat -> readline f = [])
  /\ line_feeds (readline f) = (line_feeds f - 1)%nat.
Proof.
  unfold line_feeds. induction f as [|b r [IH1 IH2]]; simpl;
    [split; reflexivity|].
  destruct (Byte.eqb b x0a); simpl.
  - split; [discriminate|]. lia.
  - split; assumption.
Qed.

Lemma readlines_few n f :
  (line_feeds f < n)%nat -> readlines n f = [].
Proof.
  revert f. induction n as [|n IH]; intros f H; [lia|]. simpl.
  destruct (readline_line_feeds f) as [H0 H1].
  destruct (line_feeds f) as [|m] eqn:E.
  - rewrite H0 by reflexivity. apply readlines_nil.
  - apply IH. rewrite H1. lia.
Qed.

(** X20.  A file with fewer than five line feeds is not rejected: the
    five [readline] calls consume all of it, and decoding returns
    [image_size * image_size] empty trains for each polarity. *)
Theorem decode_short_header bytes image_size :
  (line_feeds bytes < 5)%nat ->
  aerfile_to_spike (Some bytes) image_size
  = Ok (repeat [] (num_neurons image_size),
        repeat [] (num_neurons image_size)).
Proof.
  intros H. unfold aerfile_to_spike. rewrite readlines_few by exact H.
  cbn [fromfile_u4 reshape2 length Nat.even rows2].
  now rewrite spikes_of_no_events.
Qed.

Lemma decode_short_header_witness :
  aerfile_to_spike (Some [x23; x0a; x01; x02; x03; x04; x05]) 2
  = Ok (repeat [] (num_neurons 2), repeat [] (num_neurons 2)).
Proof.
  apply (decode_short_header [x23; x0a; x01; x02; x03; x04; x05] 2).
  vm_compute. lia.
Defined.
